(** * Config field analysis engine of the New Horizons config crawler

    A shallow embedding of [src/analysis.ts]: the recursive field extractor
    [extractFieldsFromJson], the merger [mergeFieldAnalysis], the two drivers
    [analyzeSingleConfigType] and [analyzeMultiConfigType], and the two
    summary builders [buildPerModSummaries] and [buildPerFieldSummaries].

    Conventions of the embedding.
    - A JavaScript string is a [string], one character per code unit.
    - A [Set<string>] is a [gset string]: the engine only ever adds to a set,
      unions it into another one, asks for its size, or sorts its elements,
      so the insertion order of a set is never observed.
    - A [Map<string, V>] is an association list in insertion order with
      [Map.set] keeping the position of a key that is already present: the
      iteration order of a [Map] is observed by the drivers.
    - A call that can throw returns [option], [None] standing for the
      [TypeError]. *)

From stdpp Require Import base option list strings gmap pretty.
From Stdlib Require Import Sorting.Sorted Sorting.Permutation.

Open Scope string_scope.

Set Warnings "-register-all,-clear-no-such-hyp".

(** ** Values *)

(** What the engine reads from a number: its [String()] form and whether it
    is falsy. *)
Class JsNumber (num : Type) := {
  String_num : num → string;
  falsy_num : num → bool
}.

(** Integers in the range where JavaScript prints every digit. *)
#[export] Instance JsNumber_Z : JsNumber Z := {|
  String_num := pretty;
  falsy_num := Z.eqb 0
|}.

(** The values a parsed document is made of ([any] in the source). The
    entries of an object are listed in the order of [Object.entries]. *)
Inductive jsvalue (num : Type) : Type :=
  | JNull
  | JUndefined
  | JBool (b : bool)
  | JNum (n : num)
  | JStr (s : string)
  | JArr (items : list (jsvalue num))
  | JObj (entries : list (string * jsvalue num)).

Arguments JNull {num}.
Arguments JUndefined {num}.
Arguments JBool {num} b.
Arguments JNum {num} n.
Arguments JStr {num} s.
Arguments JArr {num} items.
Arguments JObj {num} entries.

(** [!s] on a string. *)
Definition falsy_str (s : string) : bool := String.eqb s "".

(** [!v]: null, undefined, false, a falsy number and the empty string. *)
Definition falsy {num} `{JsNumber num} (v : jsvalue num) : bool :=
  match v with
  | JNull | JUndefined => true
  | JBool b => negb b
  | JNum n => falsy_num n
  | JStr s => falsy_str s
  | JArr _ | JObj _ => false
  end.

(** [Array.prototype.join(",")] over the string forms of the elements. *)
Fixpoint Array_join {A} (elem : A → option string) (items : list A)
  : option string :=
  match items with
  | [] => Some ""
  | [x] => elem x
  | x :: rest =>
      s ← elem x; r ← Array_join elem rest; Some (s ++ "," ++ r)
  end.

Definition has_own_key {A} (key : string) (entries : list (string * A)) : bool :=
  existsb (λ kv, String.eqb kv.1 key) entries.

(** [String(v)]. An array is joined with commas, null and undefined
    elements giving the empty string; a plain object gives
    ["[object Object]"] through [Object.prototype.toString], unless an own
    property [toString] (never callable in a parsed document) shadows it,
    in which case the conversion throws. *)
Fixpoint js_String {num} `{JsNumber num} (v : jsvalue num) : option string :=
  match v with
  | JNull => Some "null"
  | JUndefined => Some "undefined"
  | JBool b => Some (if b then "true" else "false")
  | JNum n => Some (String_num n)
  | JStr s => Some s
  | JArr items =>
      Array_join (λ item, match item with
                          | JNull | JUndefined => Some ""
                          | _ => js_String item
                          end) items
  | JObj entries =>
      if has_own_key "toString" entries then None else Some "[object Object]"
  end.

(** ** Maps in insertion order *)

Definition Map (V : Type) : Type := list (string * V).

Fixpoint Map_get {V} (k : string) (m : Map V) : option V :=
  match m with
  | [] => None
  | (k', v) :: rest => if String.eqb k' k then Some v else Map_get k rest
  end.

Definition Map_has {V} (k : string) (m : Map V) : bool :=
  match Map_get k m with Some _ => true | None => false end.

Fixpoint Map_set {V} (k : string) (v : V) (m : Map V) : Map V :=
  match m with
  | [] => [(k, v)]
  | (k', v') :: rest =>
      if String.eqb k' k then (k, v) :: rest else (k', v') :: Map_set k v rest
  end.

(** ** Field analyses *)

Inductive FieldType : Type := primitive | object | array.

Record FieldAnalysis : Type := mkFieldAnalysis {
  modValues : Map (gset string);
  distinctValues : gset string;
  fieldType : FieldType
}.

(** [{ modValues: new Map(), distinctValues: new Set(vs), fieldType: t }] *)
Definition newFieldAnalysis (vs : gset string) (t : FieldType) : FieldAnalysis :=
  {| modValues := []; distinctValues := vs; fieldType := t |}.

Definition add_distinctValues (vs : gset string) (a : FieldAnalysis) : FieldAnalysis :=
  {| modValues := modValues a;
     distinctValues := distinctValues a ∪ vs;
     fieldType := fieldType a |}.

(** ** The field extractor *)

(** [fieldPath || '[root]'] *)
Definition pathKey_of (fieldPath : string) : string :=
  if falsy_str fieldPath then "[root]" else fieldPath.

(** [fieldPath ? `${fieldPath}.${key}` : key] *)
Definition childPath (fieldPath key : string) : string :=
  if falsy_str fieldPath then key else fieldPath ++ "." ++ key.

(** [item !== null && typeof item === 'object'] *)
Definition isObjectItem {num} (item : jsvalue num) : bool :=
  match item with JArr _ | JObj _ => true | _ => false end.

(** [item === null || typeof item !== 'object'] *)
Definition isPrimitiveItem {num} (item : jsvalue num) : bool :=
  match item with JArr _ | JObj _ => false | _ => true end.

(** Lines 131-143: the fields of one array element are merged into
    [mergedFields], the first field type seen for a key being kept. *)
Fixpoint mergeItemFields (itemFields mergedFields : Map FieldAnalysis)
  : Map FieldAnalysis :=
  match itemFields with
  | [] => mergedFields
  | (key, analysis) :: rest =>
      let mergedFields1 :=
        if Map_has key mergedFields then mergedFields
        else Map_set key (newFieldAnalysis ∅ (fieldType analysis)) mergedFields in
      let mergedFields2 :=
        match Map_get key mergedFields1 with
        | Some merged =>
            Map_set key (add_distinctValues (distinctValues analysis) merged)
                    mergedFields1
        | None => mergedFields1
        end in
      mergeItemFields rest mergedFields2
  end.

(** Lines 128-145: the loop over the elements of the array; only elements
    that are objects and not arrays are extracted. *)
Fixpoint mergeItems {num} (extract : jsvalue num → option (Map FieldAnalysis))
    (items : list (jsvalue num)) (mergedFields : Map FieldAnalysis)
  : option (Map FieldAnalysis) :=
  match items with
  | [] => Some mergedFields
  | item :: rest =>
      match item with
      | JObj _ =>
          itemFields ← extract item;
          mergeItems extract rest (mergeItemFields itemFields mergedFields)
      | _ => mergeItems extract rest mergedFields
      end
  end.

(** Lines 147-150: the merged fields are stored under the array's path. *)
Fixpoint addPrefixed (fieldPath : string) (mergedFields fieldsMap : Map FieldAnalysis)
  : Map FieldAnalysis :=
  match mergedFields with
  | [] => fieldsMap
  | (key, analysis) :: rest =>
      addPrefixed fieldPath rest (Map_set (childPath fieldPath key) analysis fieldsMap)
  end.

(** Lines 161-165: the string form of every element that is neither null
    nor undefined is added to the set. *)
Fixpoint itemValues {num} `{JsNumber num} (items : list (jsvalue num))
    (values : gset string) : option (gset string) :=
  match items with
  | [] => Some values
  | item :: rest =>
      match item with
      | JNull | JUndefined => itemValues rest values
      | _ => s ← js_String item; itemValues rest (values ∪ {[ s ]})
      end
  end.

(** Lines 192-194: every nested entry is stored into the result. *)
Fixpoint setAll (nestedFields fieldsMap : Map FieldAnalysis) : Map FieldAnalysis :=
  match nestedFields with
  | [] => fieldsMap
  | (nestedKey, analysis) :: rest => setAll rest (Map_set nestedKey analysis fieldsMap)
  end.

(** Lines 175-204: the loop over the entries of an object. *)
Fixpoint objectEntries {num} `{JsNumber num}
    (extract : jsvalue num → string → option (Map FieldAnalysis))
    (configTypeName fieldPath : string)
    (entries : list (string * jsvalue num)) (fieldsMap : Map FieldAnalysis)
  : option (Map FieldAnalysis) :=
  match entries with
  | [] => Some fieldsMap
  | (key, value) :: rest =>
      let newPath :=
        if String.eqb fieldPath "settings" && String.eqb configTypeName "default-config"
        then fieldPath ++ ".{settingName}"
        else childPath fieldPath key in
      match value with
      | JNull | JUndefined =>
          objectEntries extract configTypeName fieldPath rest
            (Map_set newPath (newFieldAnalysis {[ "null" ]} primitive) fieldsMap)
      | JArr _ | JObj _ =>
          nestedFields ← extract value newPath;
          objectEntries extract configTypeName fieldPath rest
            (setAll nestedFields fieldsMap)
      | _ =>
          s ← js_String value;
          objectEntries extract configTypeName fieldPath rest
            (Map_set newPath (newFieldAnalysis {[ s ]} primitive) fieldsMap)
      end
  end.

(** [extractFieldsFromJson(obj, configTypeName, fieldPath)], lines 92-207. *)
Fixpoint extractFieldsFromJson {num} `{JsNumber num}
    (obj : jsvalue num) (configTypeName fieldPath : string) {struct obj}
  : option (Map FieldAnalysis) :=
  match obj with
  | JNull | JUndefined => Some []
  | JBool _ | JNum _ | JStr _ =>
      let pathKey := pathKey_of fieldPath in
      valueStr ← js_String obj;
      let analysis :=
        default (newFieldAnalysis ∅ primitive) (Map_get pathKey []) in
      Some (Map_set pathKey (add_distinctValues {[ valueStr ]} analysis) [])
  | JArr items =>
      let hasObjects := existsb isObjectItem items in
      let hasPrimitives := existsb isPrimitiveItem items in
      fieldsMap1 ←
        (if hasObjects && (0 <? length items)%nat then
           mergedFields ←
             mergeItems (λ item, extractFieldsFromJson item configTypeName "")
                        items [];
           Some (addPrefixed fieldPath mergedFields [])
         else Some []);
      if hasPrimitives then
        values ← itemValues items ∅;
        if (0 <? size values)%nat
        then Some (Map_set (pathKey_of fieldPath)
                           (newFieldAnalysis values array) fieldsMap1)
        else Some fieldsMap1
      else Some fieldsMap1
  | JObj entries =>
      objectEntries (λ value newPath, extractFieldsFromJson value configTypeName newPath)
                    configTypeName fieldPath entries []
  end.

(** ** The merger *)

(** [mergeFieldAnalysis(combinedAnalysis, modAnalysis, modName)], lines
    213-227; the mutated [combinedAnalysis] is returned. *)
Definition mergeFieldAnalysis (combinedAnalysis modAnalysis : FieldAnalysis)
    (modName : string) : FieldAnalysis :=
  let modValues1 :=
    if Map_has modName (modValues combinedAnalysis) then modValues combinedAnalysis
    else Map_set modName ∅ (modValues combinedAnalysis) in
  let modValues2 :=
    match Map_get modName modValues1 with
    | Some values =>
        Map_set modName (values ∪ distinctValues modAnalysis) modValues1
    | None => modValues1
    end in
  {| modValues := modValues2;
     distinctValues := distinctValues combinedAnalysis ∪ distinctValues modAnalysis;
     fieldType := fieldType combinedAnalysis |}.

(** ** The drivers *)

(** Lines 26-33 (and 59-66): one field of one document is merged into the
    aggregate, its entry being created first when the path is new. *)
Definition mergeField (modName : string) (fieldAnalysisMap : Map FieldAnalysis)
    (fieldPath : string) (analysis : FieldAnalysis) : Map FieldAnalysis :=
  let fieldAnalysisMap1 :=
    if Map_has fieldPath fieldAnalysisMap then fieldAnalysisMap
    else Map_set fieldPath (newFieldAnalysis ∅ (fieldType analysis)) fieldAnalysisMap in
  match Map_get fieldPath fieldAnalysisMap1 with
  | Some combinedAnalysis =>
      Map_set fieldPath (mergeFieldAnalysis combinedAnalysis analysis modName)
              fieldAnalysisMap1
  | None => fieldAnalysisMap1
  end.

(** Lines 25-34: the loop over the fields of one document. *)
Fixpoint mergeModFields (modName : string) (modFields fieldAnalysisMap : Map FieldAnalysis)
  : Map FieldAnalysis :=
  match modFields with
  | [] => fieldAnalysisMap
  | (fieldPath, analysis) :: rest =>
      mergeModFields modName rest (mergeField modName fieldAnalysisMap fieldPath analysis)
  end.

(** Lines 22-34 (and 56-67): one document of one mod; a falsy document is
    skipped. *)
Definition analyzeDocument {num} `{JsNumber num} (configTypeName modName : string)
    (configData : jsvalue num) (fieldAnalysisMap : Map FieldAnalysis)
  : option (Map FieldAnalysis) :=
  if falsy configData then Some fieldAnalysisMap
  else
    modFields ← extractFieldsFromJson configData configTypeName "";
    Some (mergeModFields modName modFields fieldAnalysisMap).

(** Lines 21-35: the loop of [analyzeSingleConfigType] over the entries of
    the store, which holds one document per mod. *)
Fixpoint singleConfigLoop {num} `{JsNumber num} (configTypeName : string)
    (configStore : list (string * jsvalue num)) (fieldAnalysisMap : Map FieldAnalysis)
  : option (Map FieldAnalysis) :=
  match configStore with
  | [] => Some fieldAnalysisMap
  | (modName, configData) :: rest =>
      fieldAnalysisMap1 ← analyzeDocument configTypeName modName configData fieldAnalysisMap;
      singleConfigLoop configTypeName rest fieldAnalysisMap1
  end.

(** Lines 55-68: the loop over the files of one mod. The file path is bound
    by the loop and not used. *)
Fixpoint configFilesLoop {num} `{JsNumber num} (configTypeName modName : string)
    (configFiles : list (string * jsvalue num)) (fieldAnalysisMap : Map FieldAnalysis)
  : option (Map FieldAnalysis) :=
  match configFiles with
  | [] => Some fieldAnalysisMap
  | (filePath, configData) :: rest =>
      fieldAnalysisMap1 ← analyzeDocument configTypeName modName configData fieldAnalysisMap;
      configFilesLoop configTypeName modName rest fieldAnalysisMap1
  end.

(** Lines 52-69: the loop of [analyzeMultiConfigType]. The store maps a mod
    to a record of files; a record is an object, hence never falsy, so the
    guard of line 53 does not fire on a store of the declared type. *)
Fixpoint multiConfigLoop {num} `{JsNumber num} (configTypeName : string)
    (configStore : list (string * list (string * jsvalue num)))
    (fieldAnalysisMap : Map FieldAnalysis) : option (Map FieldAnalysis) :=
  match configStore with
  | [] => Some fieldAnalysisMap
  | (modName, configFiles) :: rest =>
      fieldAnalysisMap1 ← configFilesLoop configTypeName modName configFiles fieldAnalysisMap;
      multiConfigLoop configTypeName rest fieldAnalysisMap1
  end.

(** ** The summary builders *)

Module PerModFieldInfo.
Record t : Type := mk {
  fieldPath : string;
  fieldType : FieldType;
  values : list string
}.
End PerModFieldInfo.

Module PerFieldModInfo.
Record t : Type := mk {
  modName : string;
  values : list string
}.
End PerFieldModInfo.

Module PerFieldSummary.
Record t : Type := mk {
  fieldType : FieldType;
  mods : list PerFieldModInfo.t;
  distinctValues : list string
}.
End PerFieldSummary.

(** [Array.prototype.sort] is stable; with a comparator that orders its
    arguments consistently the result is the one of any stable sort. *)
Fixpoint sort_insert {A} (le : A → A → bool) (x : A) (l : list A) : list A :=
  match l with
  | [] => [x]
  | y :: rest => if le x y then x :: y :: rest else y :: sort_insert le x rest
  end.

Fixpoint Array_sort {A} (le : A → A → bool) (l : list A) : list A :=
  match l with
  | [] => []
  | x :: rest => sort_insert le x (Array_sort le rest)
  end.

(** [Array.from(values).sort()]: the default order, code unit by code unit. *)
Definition sortedValues (values : gset string) : list string :=
  Array_sort String.leb (elements values).

(** The names every plain object inherits from [Object.prototype]. *)
Definition Object_prototype_names : list string :=
  [ "constructor"; "__defineGetter__"; "__defineSetter__"; "hasOwnProperty";
    "__lookupGetter__"; "__lookupSetter__"; "isPrototypeOf";
    "propertyIsEnumerable"; "toString"; "valueOf"; "__proto__";
    "toLocaleString" ].

Definition inherited (name : string) : bool :=
  existsb (String.eqb name) Object_prototype_names.

(** Lines 239-246 on the plain object [perModSummaries]: an own property is
    pushed to; a name that is not an own property but is inherited reads as
    truthy, so no array is created and the call of [push] throws; any other
    name gets a fresh array first. *)
Definition pushModInfo (modName : string) (info : PerModFieldInfo.t)
    (perModSummaries : Map (list PerModFieldInfo.t))
  : option (Map (list PerModFieldInfo.t)) :=
  match Map_get modName perModSummaries with
  | Some infos => Some (Map_set modName (infos ++ [info])%list perModSummaries)
  | None =>
      if inherited modName then None
      else Some (Map_set modName [info] perModSummaries)
  end.

(** Lines 238-247: the loop over the mods of one field. *)
Fixpoint pushFieldMods (fieldPath : string) (fieldType : FieldType)
    (mods : Map (gset string)) (perModSummaries : Map (list PerModFieldInfo.t))
  : option (Map (list PerModFieldInfo.t)) :=
  match mods with
  | [] => Some perModSummaries
  | (modName, values) :: rest =>
      perModSummaries1 ←
        pushModInfo modName
          (PerModFieldInfo.mk fieldPath fieldType (sortedValues values))
          perModSummaries;
      pushFieldMods fieldPath fieldType rest perModSummaries1
  end.

(** Lines 237-248: the loop over the fields. *)
Fixpoint pushFields (fieldAnalysisMap : Map FieldAnalysis)
    (perModSummaries : Map (list PerModFieldInfo.t))
  : option (Map (list PerModFieldInfo.t)) :=
  match fieldAnalysisMap with
  | [] => Some perModSummaries
  | (fieldPath, analysis) :: rest =>
      perModSummaries1 ←
        pushFieldMods fieldPath (fieldType analysis) (modValues analysis) perModSummaries;
      pushFields rest perModSummaries1
  end.

Section Summaries.

(** [a.localeCompare(b)]: negative, zero or positive. The collation is
    the one of the runtime and is left open. *)
Variable localeCompare : string → string → Z.

Definition locale_le (a b : string) : bool := (localeCompare a b <=? 0)%Z.

(** [buildPerModSummaries(fieldAnalysisMap)], lines 232-256. *)
Definition buildPerModSummaries (fieldAnalysisMap : Map FieldAnalysis)
  : option (Map (list PerModFieldInfo.t)) :=
  perModSummaries ← pushFields fieldAnalysisMap [];
  Some (List.map
          (λ entry : string * list PerModFieldInfo.t,
             (entry.1,
              Array_sort (λ a b, locale_le (PerModFieldInfo.fieldPath a)
                                           (PerModFieldInfo.fieldPath b))
                         entry.2))
          perModSummaries).

(** Lines 267-274: the rows of one field, one per mod, sorted by mod. *)
Definition fieldMods (mods : Map (gset string)) : list PerFieldModInfo.t :=
  Array_sort (λ a b, locale_le (PerFieldModInfo.modName a) (PerFieldModInfo.modName b))
    (List.map (λ entry : string * gset string,
                 PerFieldModInfo.mk entry.1 (sortedValues entry.2))
              mods).

(** Lines 276-280: the assignment [perFieldSummaries[fieldPath] = ...] on
    a plain object creates or replaces an own property, except for
    ["__proto__"], whose inherited setter changes the prototype and leaves
    the own properties as they are. The list holds the own properties in
    the order of their creation; the order in which the object enumerates
    them (names that are array indices first, by value) is not modelled. *)
Definition assignField (fieldPath : string) (summary : PerFieldSummary.t)
    (perFieldSummaries : Map PerFieldSummary.t) : Map PerFieldSummary.t :=
  if String.eqb fieldPath "__proto__" then perFieldSummaries
  else Map_set fieldPath summary perFieldSummaries.

(** [buildPerFieldSummaries(fieldAnalysisMap)], lines 261-284. *)
Fixpoint buildPerFieldLoop (fieldAnalysisMap : Map FieldAnalysis)
    (perFieldSummaries : Map PerFieldSummary.t) : Map PerFieldSummary.t :=
  match fieldAnalysisMap with
  | [] => perFieldSummaries
  | (fieldPath, analysis) :: rest =>
      buildPerFieldLoop rest
        (assignField fieldPath
           (PerFieldSummary.mk (fieldType analysis)
              (fieldMods (modValues analysis))
              (sortedValues (distinctValues analysis)))
           perFieldSummaries)
  end.

Definition buildPerFieldSummaries (fieldAnalysisMap : Map FieldAnalysis)
  : Map PerFieldSummary.t :=
  buildPerFieldLoop fieldAnalysisMap [].

(** What [writeAnalysisSummaries] (lines 289-311) hands to
    [JSON.stringify] and writes: the own properties of the two summary
    objects, which determine the text of the two files. *)
Record Summaries : Type := mkSummaries {
  perModSummary : Map (list PerModFieldInfo.t);
  perFieldSummary : Map PerFieldSummary.t
}.

Definition writeAnalysisSummaries (fieldAnalysisMap : Map FieldAnalysis)
  : option Summaries :=
  perMod ← buildPerModSummaries fieldAnalysisMap;
  Some {| perModSummary := perMod;
          perFieldSummary := buildPerFieldSummaries fieldAnalysisMap |}.

(** [analyzeSingleConfigType(configStore, configTypeName)], lines 13-38. *)
Definition analyzeSingleConfigType {num} `{JsNumber num}
    (configStore : list (string * jsvalue num)) (configTypeName : string)
  : option Summaries :=
  fieldAnalysisMap ← singleConfigLoop configTypeName configStore [];
  writeAnalysisSummaries fieldAnalysisMap.

(** [analyzeMultiConfigType(configStore, configTypeName)], lines 44-72. *)
Definition analyzeMultiConfigType {num} `{JsNumber num}
    (configStore : list (string * list (string * jsvalue num)))
    (configTypeName : string) : option Summaries :=
  fieldAnalysisMap ← multiConfigLoop configTypeName configStore [];
  writeAnalysisSummaries fieldAnalysisMap.

(** The six stores of [src/context.ts]. *)
Record AnalysisContext (num : Type) : Type := mkAnalysisContext {
  manifestConfigs : list (string * jsvalue num);
  titleScreenConfigs : list (string * jsvalue num);
  addonConfigs : list (string * jsvalue num);
  settingConfigs : list (string * jsvalue num);
  planetConfigs : list (string * list (string * jsvalue num));
  systemConfigs : list (string * list (string * jsvalue num))
}.

(** The analyses run one after the other; the first one that throws ends
    the run, the summaries written before it staying on disk. The result
    is the list of what was written and whether the run completed. *)
Fixpoint runAnalyses (jobs : list (string * option Summaries))
  : list (string * Summaries) * bool :=
  match jobs with
  | [] => ([], true)
  | (configTypeName, Some summaries) :: rest =>
      let '(written, completed) := runAnalyses rest in
      ((configTypeName, summaries) :: written, completed)
  | (_, None) :: _ => ([], false)
  end.

(** [analyzeModConfigs(ctx)], lines 75-80. *)
Definition analyzeModConfigs {num} `{JsNumber num} (ctx : AnalysisContext num)
  : list (string * Summaries) * bool :=
  runAnalyses
    [ ("manifest", analyzeSingleConfigType (manifestConfigs num ctx) "manifest");
      ("title-screen", analyzeSingleConfigType (titleScreenConfigs num ctx) "title-screen");
      ("addon-manifest", analyzeSingleConfigType (addonConfigs num ctx) "addon-manifest");
      ("default-config", analyzeSingleConfigType (settingConfigs num ctx) "default-config");
      ("planets", analyzeMultiConfigType (planetConfigs num ctx) "planets");
      ("systems", analyzeMultiConfigType (systemConfigs num ctx) "systems") ].

End Summaries.

Arguments manifestConfigs {num} _.
Arguments titleScreenConfigs {num} _.
Arguments addonConfigs {num} _.
Arguments settingConfigs {num} _.
Arguments planetConfigs {num} _.
Arguments systemConfigs {num} _.
Arguments mkAnalysisContext {num} _ _ _ _ _ _.

(** ** Properties stated about the engine *)

(** The aggregates the drivers can hold: the empty map each driver starts
    from, and whatever one more run of lines 26-33 makes of such a map. *)
Inductive reachable : Map FieldAnalysis → Prop :=
  | reachable_new : reachable []
  | reachable_merge modName fieldAnalysisMap fieldPath analysis :
      reachable fieldAnalysisMap →
      reachable (mergeField modName fieldAnalysisMap fieldPath analysis).

(** The values of a field are the union of the values of its mods. *)
Definition unionInvariant (a : FieldAnalysis) : Prop :=
  distinctValues a = ⋃ (modValues a).*2.

(** The canonical string form of a scalar; nothing for null, undefined,
    arrays and objects. *)
Definition canonical {num} `{JsNumber num} (item : jsvalue num) : option string :=
  match item with
  | JBool b => Some (if b then "true" else "false")
  | JNum n => Some (String_num n)
  | JStr s => Some s
  | _ => None
  end.

(** The canonical string forms of the scalar elements of an array. *)
Definition scalarValues {num} `{JsNumber num} (items : list (jsvalue num))
  : gset string :=
  list_to_set (omap canonical items).

(** The child path of [key] under [fieldPath], the keys of ["settings"]
    being collapsed for the config type ["default-config"]. *)
Definition newPath_of (configTypeName fieldPath key : string) : string :=
  if String.eqb fieldPath "settings" && String.eqb configTypeName "default-config"
  then fieldPath ++ ".{settingName}"
  else childPath fieldPath key.

Section SortedSummaries.

Variable localeCompare : string → string → Z.

Definition byFieldPath (a b : PerModFieldInfo.t) : Prop :=
  (localeCompare (PerModFieldInfo.fieldPath a) (PerModFieldInfo.fieldPath b) <= 0)%Z.

Definition byModName (a b : PerFieldModInfo.t) : Prop :=
  (localeCompare (PerFieldModInfo.modName a) (PerFieldModInfo.modName b) <= 0)%Z.

(** The default order of [sort()] on strings. *)
Definition byCodeUnits (a b : string) : Prop := String.leb a b = true.

(** The rows of a field are ordered by mod name, and its lists of values
    by code units. *)
Definition sortedFieldSummary (summary : PerFieldSummary.t) : Prop :=
  StronglySorted byModName (PerFieldSummary.mods summary)
  ∧ Forall (λ info, StronglySorted byCodeUnits (PerFieldModInfo.values info))
           (PerFieldSummary.mods summary)
  ∧ StronglySorted byCodeUnits (PerFieldSummary.distinctValues summary).

(** The rows of every mod are ordered by field path, the rows of every
    field by mod name, and every list of values by code units. *)
Definition sortedSummaries (s : Summaries) : Prop :=
  (∀ modName infos, (modName, infos) ∈ perModSummary s →
     StronglySorted byFieldPath infos
     ∧ Forall (λ info, StronglySorted byCodeUnits (PerModFieldInfo.values info)) infos)
  ∧ (∀ fieldPath summary, (fieldPath, summary) ∈ perFieldSummary s →
       sortedFieldSummary summary).

End SortedSummaries.

(** A collation to run the summaries with: the order of the code units. *)
Definition codeUnitCompare (a b : string) : Z :=
  match String.compare a b with Lt => (-1)%Z | Eq => 0%Z | Gt => 1%Z end.

(** *** Documents of the specification *)

Module Docs.
Open Scope Z_scope.

(** [{"settings": {"volume": 5, "brightness": 7}}] *)
Definition settings : jsvalue Z :=
  JObj [("settings", JObj [("volume", JNum 5); ("brightness", JNum 7)])].

(** [{"settings": {"a": 1, "b": [2]}}] *)
Definition settingsTwoKinds : jsvalue Z :=
  JObj [("settings", JObj [("a", JNum 1); ("b", JArr [JNum 2])])].

(** [{"a.b": 1, "a": {"b": [2]}}] *)
Definition dottedKey : jsvalue Z :=
  JObj [("a.b", JNum 1); ("a", JObj [("b", JArr [JNum 2])])].

(** [{"tags": [1, {"k": 2}, null]}] *)
Definition tags : jsvalue Z :=
  JObj [("tags", JArr [JNum 1; JObj [("k", JNum 2)]; JNull])].

(** [[[1, 2], 3]] *)
Definition nested : jsvalue Z := JArr [JArr [JNum 1; JNum 2]; JNum 3].

(** [[[{"toString": 1}], 3]] *)
Definition nestedToString : jsvalue Z :=
  JArr [JArr [JObj [("toString", JNum 1)]]; JNum 3].

(** [{"x": 1}] and [{"x": 2}] *)
Definition fileA : jsvalue Z := JObj [("x", JNum 1)].
Definition fileB : jsvalue Z := JObj [("x", JNum 2)].

(** A store with two mods, for the summaries. *)
Definition context : AnalysisContext Z :=
  mkAnalysisContext
    [("b.mod", JObj [("name", JStr "B"); ("deps", JArr [JStr "y"; JStr "x"])]);
     ("a.mod", JObj [("name", JStr "A"); ("author", JStr "z")])]
    [] []
    [("a.mod", settings)]
    [("a.mod", [("planets/one.json", fileB); ("planets/two.json", fileA)])]
    [].
End Docs.

(** The values of [a] are already recorded for [modName] in [c]. *)
Definition absorbedIn (modName : string) (c a : FieldAnalysis) : Prop :=
  ∃ values,
    Map_get modName (modValues c) = Some values
    ∧ distinctValues a ⊆ values
    ∧ distinctValues a ⊆ distinctValues c.

(** The aggregate has an entry at [fieldPath] that absorbed [a]. *)
Definition absorbed (modName : string) (m : Map FieldAnalysis)
    (fieldPath : string) (a : FieldAnalysis) : Prop :=
  ∃ c, Map_get fieldPath m = Some c ∧ absorbedIn modName c a.

(** ** Well-formedness of what the engine builds *)

(** What the extractor emits for a path: no provenance, a kind that is not
    [object], and at least one value. *)
Definition extractedAnalysis (a : FieldAnalysis) : Prop :=
  modValues a = [] ∧ fieldType a ≠ object ∧ distinctValues a ≠ ∅.

(** The keys of a map, in insertion order. *)
Definition Map_keys {V} (m : Map V) : list string := m.*1.

(** No object of the document has an own property called [toString]. *)
Fixpoint noToStringKey {num} (v : jsvalue num) : bool :=
  match v with
  | JArr items => forallb noToStringKey items
  | JObj entries =>
      negb (has_own_key "toString" entries)
      && forallb (λ entry, noToStringKey entry.2) entries
  | _ => true
  end.

(** What is recorded for a mod at a path of the aggregate, if anything. *)
Definition modValuesAt (modName fieldPath : string) (m : Map FieldAnalysis)
  : option (gset string) :=
  c ← Map_get fieldPath m; Map_get modName (modValues c).

(** The values a list of extracted fields holds for a path. *)
Definition extractedAt (fieldPath : string) (modFields : Map FieldAnalysis)
  : gset string :=
  ⋃ (omap (λ entry : string * FieldAnalysis,
             if String.eqb entry.1 fieldPath then Some (distinctValues entry.2)
             else None) modFields).

(** An entry of the aggregate: distinct mods, at least one of them. *)
Definition aggregatedAnalysis (a : FieldAnalysis) : Prop :=
  NoDup (Map_keys (modValues a)) ∧ modValues a ≠ [].

(** The store of a multi-document config type as a store with one entry per
    file, each under the name of its mod. *)
Definition flattenStore {num} (configStore : list (string * list (string * jsvalue num)))
  : list (string * jsvalue num) :=
  configStore ≫= λ entry, (λ file : string * jsvalue num, (entry.1, file.2)) <$> entry.2.

(** A map as the extractor builds it: distinct paths, each with an analysis
    of the extracted form. *)
Definition extractedMap (m : Map FieldAnalysis) : Prop :=
  NoDup (Map_keys m) ∧ Forall (λ entry, extractedAnalysis entry.2) m.

(** [c'] records everything [c] does: the same kind, and at least the
    values of [c], overall and mod by mod. *)
Definition extendsAnalysis (c c' : FieldAnalysis) : Prop :=
  fieldType c' = fieldType c
  ∧ distinctValues c ⊆ distinctValues c'
  ∧ ∀ modName values,
      Map_get modName (modValues c) = Some values →
      ∃ values', Map_get modName (modValues c') = Some values' ∧ values ⊆ values'.

(** The distinct values recorded at a path of the aggregate, if any. *)
Definition distinctValuesAt (fieldPath : string) (m : Map FieldAnalysis)
  : option (gset string) :=
  distinctValues <$> Map_get fieldPath m.

(** An aggregate as the drivers build it. *)
Definition aggregatedMap (m : Map FieldAnalysis) : Prop :=
  NoDup (Map_keys m) ∧ Forall (λ entry, aggregatedAnalysis entry.2) m.

(** An entry of an aggregate, for the examples: the path was seen for one
    mod, with one value. *)
Definition recordedOnce : FieldAnalysis :=
  {| modValues := [("a.mod", {[ "1" ]})];
     distinctValues := {[ "1" ]};
     fieldType := primitive |}.

(** The mod has a row [info] in the per-mod summary object. *)
Definition hasRow (modName : string) (info : PerModFieldInfo.t)
    (perModSummaries : Map (list PerModFieldInfo.t)) : Prop :=
  ∃ infos, (modName, infos) ∈ perModSummaries ∧ info ∈ infos.

(** The aggregate records the mod at the path, with this kind and with
    these values once sorted. *)
Definition recordsRow (m : Map FieldAnalysis) (modName : string)
    (info : PerModFieldInfo.t) : Prop :=
  ∃ analysis values,
    (PerModFieldInfo.fieldPath info, analysis) ∈ m
    ∧ (modName, values) ∈ modValues analysis
    ∧ PerModFieldInfo.fieldType info = fieldType analysis
    ∧ PerModFieldInfo.values info = sortedValues values.

(** Some mod recorded in the aggregate bears a name that every object
    inherits. *)
Definition hasInheritedModName (m : Map FieldAnalysis) : Prop :=
  ∃ fieldPath analysis modName values,
    (fieldPath, analysis) ∈ m
    ∧ (modName, values) ∈ modValues analysis
    ∧ inherited modName = true.

(** The row of the per-field summary made from an entry of the aggregate. *)
Definition fieldSummaryOf (localeCompare : string → string → Z) (a : FieldAnalysis)
  : PerFieldSummary.t :=
  PerFieldSummary.mk (fieldType a) (fieldMods localeCompare (modValues a))
                     (sortedValues (distinctValues a)).

(** The distinct values of a row of the per-field summary are the values
    its mods list. *)
Definition valuesAreUnion (summary : PerFieldSummary.t) : Prop :=
  ∀ value,
    value ∈ PerFieldSummary.distinctValues summary
    ↔ ∃ info, info ∈ PerFieldSummary.mods summary
              ∧ value ∈ PerFieldModInfo.values info.

(** ** Strings, paths and the file tree ([src/github.ts], [src/cache.ts]) *)

From Stdlib Require Import Strings.Ascii.

(** [s.replace(/\\/g, '/')] *)
Fixpoint replaceBackslashes (s : string) : string :=
  match s with
  | "" => ""
  | String c rest =>
      String (if Ascii.eqb c "\"%char then "/"%char else c) (replaceBackslashes rest)
  end.

(** [s.toLowerCase()] on one code unit below 256: the letters A-Z, and the
    Latin-1 capitals U+00C0-U+00DE but the multiplication sign U+00D7, move
    up by 32. *)
Definition toLowerChar (c : Ascii.ascii) : Ascii.ascii :=
  let n := Ascii.N_of_ascii c in
  if ((65 <=? n) && (n <=? 90) || (192 <=? n) && (n <=? 214)
      || (216 <=? n) && (n <=? 222))%N
  then Ascii.ascii_of_N (n + 32) else c.

Fixpoint toLowerCase (s : string) : string :=
  match s with
  | "" => ""
  | String c rest => String (toLowerChar c) (toLowerCase rest)
  end.

(** Every character of the string is an ASCII character. Lower-casing such
    a string changes no position of it, which lower-casing a string with
    code units of 256 and more (outside this embedding) may do. *)
Fixpoint isAscii (s : string) : bool :=
  match s with
  | "" => true
  | String c rest => (Ascii.N_of_ascii c <? 128)%N && isAscii rest
  end.

(** [s.indexOf(search)], counted from position [i] of the whole string;
    [-1] when [search] does not occur. *)
Fixpoint indexOf_from (search s : string) (i : Z) : Z :=
  if String.prefix search s then i
  else match s with
       | "" => (-1)%Z
       | String _ rest => indexOf_from search rest (i + 1)%Z
       end.

Definition indexOf (search s : string) : Z := indexOf_from search s 0.

(** [s.includes(search)] *)
Definition includes (search s : string) : bool :=
  negb (indexOf search s =? -1)%Z.

(** [s.endsWith(suffix)] *)
Fixpoint endsWith (suffix s : string) : bool :=
  if String.eqb s suffix then true
  else match s with
       | "" => false
       | String _ rest => endsWith suffix rest
       end.

(** [s.lastIndexOf(c)] for a single character, counted from position [i];
    [found] is the last position seen so far. *)
Fixpoint lastIndexOf_from (c : Ascii.ascii) (s : string) (i found : Z) : Z :=
  match s with
  | "" => found
  | String c' rest =>
      lastIndexOf_from c rest (i + 1)%Z (if Ascii.eqb c' c then i else found)
  end.

Definition lastIndexOf (c : Ascii.ascii) (s : string) : Z :=
  lastIndexOf_from c s 0 (-1).

(** [s.substring(start)]: a negative start counts as zero, one beyond the
    end gives the empty string. *)
Fixpoint dropChars (n : nat) (s : string) : string :=
  match n, s with
  | O, _ => s
  | S n', String _ rest => dropChars n' rest
  | S _, "" => ""
  end.

Definition substringFrom (start : Z) (s : string) : string :=
  dropChars (Z.to_nat start) s.

(** [getFileName(path)], [src/github.ts] lines 179-182. *)
Definition getFileName (path : string) : string :=
  let normalized := replaceBackslashes path in
  substringFrom (lastIndexOf "/"%char normalized + 1)%Z normalized.

(** [getRelativePathFrom(fullPath, directoryName)] of [src/github.ts], lines
    240-249; [None] is the thrown [Error]. *)
Definition getRelativePathFrom (fullPath directoryName : string) : option string :=
  let normalized := replaceBackslashes fullPath in
  let lowerPath := toLowerCase normalized in
  let lowerDir := toLowerCase directoryName in
  let index := indexOf lowerDir lowerPath in
  if (index =? -1)%Z then None else Some (substringFrom index normalized).

(** [getRelativePathFrom(fullPath, directoryName)] of [src/cache.ts], lines
    98-107: the directory name is looked for between two slashes. *)
Definition getRelativePathFrom_cache (fullPath directoryName : string) : option string :=
  let normalized := replaceBackslashes fullPath in
  let lowerPath := toLowerCase normalized in
  let lowerDir := "/" ++ toLowerCase directoryName ++ "/" in
  let index := indexOf lowerDir lowerPath in
  if (index =? -1)%Z then None else Some (substringFrom index normalized).

(** An entry of the file tree of a repository: [{ type: string; path?:
    string }]. *)
Module TreeEntry.
Record t : Type := mk {
  type : string;
  path : option string
}.
End TreeEntry.

(** [file.path || ''] *)
Definition pathOrEmpty (file : TreeEntry.t) : string :=
  match TreeEntry.path file with
  | Some p => if falsy_str p then "" else p
  | None => ""
  end.

(** [findGitHubFilesByName(tree, fileName)], lines 187-193. *)
Definition findGitHubFilesByName (tree : list TreeEntry.t) (fileName : string)
  : list TreeEntry.t :=
  let lowerFileName := toLowerCase fileName in
  List.filter (λ file,
      String.eqb (TreeEntry.type file) "blob"
      && String.eqb (toLowerCase (getFileName (pathOrEmpty file))) lowerFileName)
    tree.

(** [findSingleGitHubFileByName(tree, fileName, modUniqueName, repo)], lines
    198-222, the warning left out. [None] is [null]; the path of the entry
    found is returned as it is, present or not. *)
Definition findSingleGitHubFileByName (tree : list TreeEntry.t)
    (fileName modUniqueName repo : string) : option (option string) :=
  let files := findGitHubFilesByName tree fileName in
  let files1 :=
    if String.eqb (toLowerCase fileName) "manifest.json"
    then List.filter (λ f, negb (includes "packages/" (toLowerCase (pathOrEmpty f)))) files
    else files in
  let files2 :=
    List.filter (λ f,
        let lowerPath := toLowerCase (pathOrEmpty f) in
        negb (includes "/bin/debug/" lowerPath || includes "/bin/release/" lowerPath))
      files1 in
  match files2 with
  | [] => None
  | file :: _ => Some (TreeEntry.path file)
  end.

(** [findFilesInGitHubDirectory(tree, directoryName)], lines 228-235. *)
Definition findFilesInGitHubDirectory (tree : list TreeEntry.t) (directoryName : string)
  : list TreeEntry.t :=
  let normalizedDir := toLowerCase directoryName in
  List.filter (λ file,
      String.eqb (TreeEntry.type file) "blob"
      && match TreeEntry.path file with
         | Some p =>
             includes normalizedDir (toLowerCase p)
             && endsWith ".json" (toLowerCase p)
         | None => false
         end)
    tree.

(** ** The report ([src/analysis.ts], lines 804-878) *)

(** [escapeHtml(text)], lines 868-877: the replacement of one character. *)
Definition escapeChar (c : Ascii.ascii) : string :=
  if Ascii.eqb c "&"%char then "&amp;"
  else if Ascii.eqb c "<"%char then "&lt;"
  else if Ascii.eqb c ">"%char then "&gt;"
  else if Ascii.eqb c "034"%char then "&quot;"
  else if Ascii.eqb c "'"%char then "&#039;"
  else String c "".

Fixpoint escapeHtml (text : string) : string :=
  match text with
  | "" => ""
  | String c rest => escapeChar c ++ escapeHtml rest
  end.

(** The character occurs in the string. *)
Fixpoint hasChar (c : Ascii.ascii) (s : string) : bool :=
  match s with
  | "" => false
  | String c' rest => Ascii.eqb c' c || hasChar c rest
  end.

(** [getFieldHtml], lines 811-818: the loop that builds the plain object
    [valuesByMod], from a value to the names of the mods that use it. As in
    [pushModInfo], a value that is not an own property but is inherited
    reads as truthy, and the call of [push] throws. *)
Definition pushValueMod (value modName : string) (valuesByMod : Map (list string))
  : option (Map (list string)) :=
  match Map_get value valuesByMod with
  | Some mods => Some (Map_set value (mods ++ [modName])%list valuesByMod)
  | None =>
      if inherited value then None
      else Some (Map_set value [modName] valuesByMod)
  end.

Fixpoint pushModValues (modName : string) (values : list string)
    (valuesByMod : Map (list string)) : option (Map (list string)) :=
  match values with
  | [] => Some valuesByMod
  | value :: rest =>
      valuesByMod1 ← pushValueMod value modName valuesByMod;
      pushModValues modName rest valuesByMod1
  end.

Fixpoint valuesByModLoop (mods : list PerFieldModInfo.t)
    (valuesByMod : Map (list string)) : option (Map (list string)) :=
  match mods with
  | [] => Some valuesByMod
  | modInfo :: rest =>
      valuesByMod1 ←
        pushModValues (PerFieldModInfo.modName modInfo)
                      (PerFieldModInfo.values modInfo) valuesByMod;
      valuesByModLoop rest valuesByMod1
  end.

(** ** Induction over documents *)

Section JsvalueInduction.
Context {num : Type} (P : jsvalue num → Prop).
Hypothesis P_null : P JNull.
Hypothesis P_undefined : P JUndefined.
Hypothesis P_bool : ∀ b, P (JBool b).
Hypothesis P_num : ∀ n, P (JNum n).
Hypothesis P_str : ∀ s, P (JStr s).
Hypothesis P_arr : ∀ items, Forall P items → P (JArr items).
Hypothesis P_obj : ∀ entries, Forall (λ entry, P entry.2) entries → P (JObj entries).

Fixpoint jsvalue_nested_ind (v : jsvalue num) : P v :=
  match v with
  | JNull => P_null
  | JUndefined => P_undefined
  | JBool b => P_bool b
  | JNum n => P_num n
  | JStr s => P_str s
  | JArr items =>
      P_arr items
        ((fix items_ind (l : list (jsvalue num)) : Forall P l :=
            match l with
            | [] => @List.Forall_nil _ _
            | item :: rest =>
                @List.Forall_cons _ _ _ _ (jsvalue_nested_ind item) (items_ind rest)
            end) items)
  | JObj entries =>
      P_obj entries
        ((fix entries_ind (l : list (string * jsvalue num))
            : Forall (λ entry, P entry.2) l :=
            match l with
            | [] => @List.Forall_nil _ _
            | entry :: rest =>
                @List.Forall_cons _ _ _ _ (jsvalue_nested_ind entry.2) (entries_ind rest)
            end) entries)
  end.
End JsvalueInduction.

(** * Proofs *)

(** ** Maps *)

Section MapFacts.
Context {V : Type}.
Implicit Types (m : Map V) (k : string) (v : V).

Lemma Map_get_set_eq k v m : Map_get k (Map_set k v m) = Some v.
Proof.
  induction m as [|[k' v'] m IH]; simpl.
  - by rewrite String.eqb_refl.
  - destruct (String.eqb_spec k' k) as [->|Hne]; simpl.
    + by rewrite String.eqb_refl.
    + destruct (String.eqb_spec k' k); [done | exact IH].
Qed.

Lemma Map_get_set_ne k k' v m : k ≠ k' → Map_get k' (Map_set k v m) = Map_get k' m.
Proof.
  intros Hne. induction m as [|[k0 v0] m IH]; simpl.
  - destruct (String.eqb_spec k k'); [done | reflexivity].
  - destruct (String.eqb_spec k0 k) as [->|Hk]; simpl.
    + destruct (String.eqb_spec k k'); [done | reflexivity].
    + destruct (String.eqb_spec k0 k'); [reflexivity | exact IH].
Qed.

Lemma Map_set_id k v m : Map_get k m = Some v → Map_set k v m = m.
Proof.
  induction m as [|[k' v'] m IH]; simpl; [done |].
  destruct (String.eqb_spec k' k) as [->|Hne].
  - by intros [= ->].
  - intros Hget. by rewrite IH.
Qed.

Lemma Map_has_true k m : Map_has k m = true ↔ is_Some (Map_get k m).
Proof.
  unfold Map_has. destruct (Map_get k m); split; intros Hs; eauto; done.
Qed.

Lemma Map_get_elem_of k v m : Map_get k m = Some v → (k, v) ∈ m.
Proof.
  induction m as [|[k' v'] m IH]; simpl; [done |].
  destruct (String.eqb_spec k' k) as [->|Hne].
  - intros [= ->]. apply list_elem_of_here.
  - intros Hget. apply list_elem_of_further, IH, Hget.
Qed.

(** Every entry of [Map_set k v m] is the new one or an old one. *)
Lemma elem_of_Map_set k v m k' v' :
  (k', v') ∈ Map_set k v m → (k', v') = (k, v) ∨ (k', v') ∈ m.
Proof.
  induction m as [|[k0 v0] m IH]; simpl.
  - intros ->%list_elem_of_singleton. by left.
  - destruct (String.eqb_spec k0 k) as [->|Hne].
    + intros [->|Hin]%elem_of_cons; [by left | right; by apply list_elem_of_further].
    + intros [->|Hin]%elem_of_cons.
      * right. apply list_elem_of_here.
      * destruct (IH Hin) as [->|Hin']; [by left | right; by apply list_elem_of_further].
Qed.
End MapFacts.

(** ** The extractor on the documents of the specification *)

(** The two settings are stored under two paths by every config type but
    ["default-config"]. *)
Lemma extract_settings_other configTypeName :
  configTypeName ≠ "default-config" →
  extractFieldsFromJson Docs.settings configTypeName "" =
    Some [("settings.volume", newFieldAnalysis {[ "5" ]} primitive);
          ("settings.brightness", newFieldAnalysis {[ "7" ]} primitive)].
Proof.
  intros Hne. simpl.
  destruct (String.eqb_spec configTypeName "default-config") as [|_]; [done |].
  vm_compute. reflexivity.
Qed.

(** C1: under ["default-config"] the document
    [{"settings": {"volume": 5, "brightness": 7}}] yields the single path
    ["settings.{settingName}"], but its value set is [{"7"}]: the entry of
    ["volume"] is replaced by the entry of ["brightness"], the value ["5"]
    being lost. *)
Theorem C1_settings_keep_last_value_only :
  extractFieldsFromJson Docs.settings "default-config" "" =
    Some [("settings.{settingName}", newFieldAnalysis {[ "7" ]} primitive)]
  ∧ ({[ "7" ]} : gset string) ≠ {[ "5"; "7" ]}.
Proof. split; [vm_compute; reflexivity | vm_compute; discriminate]. Qed.

(** C6: the document [{"tags": [1, {"k": 2}, null]}] yields the paths
    ["tags.k"] and ["tags"], but the value set of ["tags"] holds the string
    form of the object element besides ["1"]. *)
Theorem C6_mixed_array_stringifies_object configTypeName :
  extractFieldsFromJson Docs.tags configTypeName "" =
    Some [("tags.k", newFieldAnalysis {[ "2" ]} primitive);
          ("tags", newFieldAnalysis {[ "1"; "[object Object]" ]} array)]
  ∧ ({[ "1"; "[object Object]" ]} : gset string) ≠ {[ "1" ]}.
Proof. split; [vm_compute; reflexivity | vm_compute; discriminate]. Qed.

(** C10: on [[[1, 2], 3]] the nested array is not recursed into, but its
    string form ["1,2"] is added to the value set of the outer array; and on
    [[[{"toString": 1}], 3]] the extraction throws. *)
Theorem C10_nested_array_is_stringified configTypeName :
  extractFieldsFromJson Docs.nested configTypeName "" =
    Some [("[root]", newFieldAnalysis {[ "1,2"; "3" ]} array)]
  ∧ extractFieldsFromJson Docs.nestedToString configTypeName "" = None.
Proof. split; vm_compute; reflexivity. Qed.

(** C5: within one document a later sibling replaces the entry of an
    earlier one, kind included: the path ["settings.{settingName}"] is seen
    first as primitive and ends up recorded as array. *)
Theorem C5_later_sibling_revises_kind :
  extractFieldsFromJson Docs.settingsTwoKinds "default-config" "" =
    Some [("settings.{settingName}", newFieldAnalysis {[ "2" ]} array)]
  ∧ singleConfigLoop "default-config" [("a.mod", Docs.settingsTwoKinds)] [] =
    Some [("settings.{settingName}",
           {| modValues := [("a.mod", {[ "2" ]})];
              distinctValues := {[ "2" ]};
              fieldType := array |})].
Proof. split; vm_compute; reflexivity. Qed.

(** The same under every config type, with a key that holds a dot. *)
Lemma extract_dottedKey configTypeName :
  extractFieldsFromJson Docs.dottedKey configTypeName "" =
    Some [("a.b", newFieldAnalysis {[ "2" ]} array)].
Proof. vm_compute. reflexivity. Qed.

(** ** The merger, case by case *)

Lemma mergeFieldAnalysis_known c a modName values :
  Map_get modName (modValues c) = Some values →
  mergeFieldAnalysis c a modName =
    {| modValues := Map_set modName (values ∪ distinctValues a) (modValues c);
       distinctValues := distinctValues c ∪ distinctValues a;
       fieldType := fieldType c |}.
Proof. intros Hget. unfold mergeFieldAnalysis, Map_has. by rewrite Hget, Hget. Qed.

Lemma mergeFieldAnalysis_fresh c a modName :
  Map_get modName (modValues c) = None →
  mergeFieldAnalysis c a modName =
    {| modValues := Map_set modName (∅ ∪ distinctValues a)
                      (Map_set modName ∅ (modValues c));
       distinctValues := distinctValues c ∪ distinctValues a;
       fieldType := fieldType c |}.
Proof.
  intros Hget. unfold mergeFieldAnalysis, Map_has.
  by rewrite Hget, Map_get_set_eq.
Qed.

Lemma mergeField_known modName m fieldPath a c :
  Map_get fieldPath m = Some c →
  mergeField modName m fieldPath a =
    Map_set fieldPath (mergeFieldAnalysis c a modName) m.
Proof. intros Hget. unfold mergeField, Map_has. by rewrite Hget, Hget. Qed.

Lemma mergeField_fresh modName m fieldPath a :
  Map_get fieldPath m = None →
  mergeField modName m fieldPath a =
    Map_set fieldPath
      (mergeFieldAnalysis (newFieldAnalysis ∅ (fieldType a)) a modName)
      (Map_set fieldPath (newFieldAnalysis ∅ (fieldType a)) m).
Proof.
  intros Hget. unfold mergeField, Map_has. by rewrite Hget, Map_get_set_eq.
Qed.

Lemma Map_set_singleton {V} k (v v' : V) : Map_set k v [(k, v')] = [(k, v)].
Proof. simpl. by rewrite String.eqb_refl. Qed.

(** C7: one mod with the two files [{"x": 1}] and [{"x": 2}] yields the
    single path ["x"], whose value set for that mod is [{"1", "2"}];
    whatever the files are called, no other path is made. *)
Theorem C7_two_files_accumulate configTypeName modName filePathA filePathB :
  multiConfigLoop configTypeName
    [(modName, [(filePathA, Docs.fileA); (filePathB, Docs.fileB)])] [] =
    Some [("x", {| modValues := [(modName, {[ "1"; "2" ]})];
                   distinctValues := {[ "1"; "2" ]};
                   fieldType := primitive |})].
Proof.
  assert (extractFieldsFromJson Docs.fileA configTypeName "" =
            Some [("x", newFieldAnalysis {[ "1" ]} primitive)]) as HA
    by (vm_compute; reflexivity).
  assert (extractFieldsFromJson Docs.fileB configTypeName "" =
            Some [("x", newFieldAnalysis {[ "2" ]} primitive)]) as HB
    by (vm_compute; reflexivity).
  unfold multiConfigLoop, configFilesLoop, analyzeDocument.
  change (falsy Docs.fileA) with false. change (falsy Docs.fileB) with false.
  cbv iota. rewrite HA, HB. unfold mbind, option_bind, mergeModFields.
  rewrite (mergeField_fresh modName []) by reflexivity.
  rewrite mergeFieldAnalysis_fresh by reflexivity.
  change (Map_set "x" (newFieldAnalysis ∅ _) []) with [("x", newFieldAnalysis ∅ primitive)].
  change (Map_set modName ∅ (modValues _)) with [(modName, ∅ : gset string)].
  rewrite !Map_set_singleton.
  erewrite mergeField_known by reflexivity.
  erewrite mergeFieldAnalysis_known; [| simpl; by rewrite String.eqb_refl].
  rewrite !Map_set_singleton. unfold newFieldAnalysis; simpl.
  rewrite String.eqb_refl.
  by rewrite !(left_id_L ∅ (∪)).
Qed.

(** ** Null input and arrays of scalars *)



(** The loop over the entries of an object, run on two lists in a row. *)
Lemma objectEntries_app {num} {HN : JsNumber num}
    (extract : jsvalue num → string → option (Map FieldAnalysis))
    configTypeName fieldPath entries1 entries2 fieldsMap :
  objectEntries extract configTypeName fieldPath (entries1 ++ entries2)%list fieldsMap =
    (fieldsMap1 ← objectEntries extract configTypeName fieldPath entries1 fieldsMap;
     objectEntries extract configTypeName fieldPath entries2 fieldsMap1).
Proof.
  revert fieldsMap. induction entries1 as [|[key value] rest IH]; intros fieldsMap; simpl.
  - done.
  - destruct value; simpl; try apply IH.
    + destruct (extract _ _); simpl; [apply IH | done].
    + destruct (extract _ _); simpl; [apply IH | done].
Qed.

(** Where the value ["null"] does come from: the object branch gives a null
    or absent child an entry of kind primitive at the child path. The entry
    stands in the result when the child is the last key of its object; a
    later key that leads to the same path replaces it. *)
Lemma null_child_of_last_key {num} {HN : JsNumber num}
    (entries : list (string * jsvalue num)) (key : string) (child : jsvalue num)
    (configTypeName fieldPath : string) (fieldsMap : Map FieldAnalysis) :
  child = JNull ∨ child = JUndefined →
  extractFieldsFromJson (JObj (entries ++ [(key, child)])) configTypeName fieldPath
    = Some fieldsMap →
  Map_get (newPath_of configTypeName fieldPath key) fieldsMap
    = Some (newFieldAnalysis {[ "null" ]} primitive).
Proof.
  intros Hchild.
  change (extractFieldsFromJson (JObj (entries ++ [(key, child)])) configTypeName fieldPath)
    with (objectEntries
            (λ value newPath, extractFieldsFromJson value configTypeName newPath)
            configTypeName fieldPath (entries ++ [(key, child)])%list []).
  rewrite objectEntries_app.
  destruct (objectEntries _ _ _ entries []) as [fieldsMap1|]; simpl; [| done].
  destruct Hchild as [-> | ->]; intros [= <-]; apply Map_get_set_eq.
Qed.

(** The value loop over an array without composite elements adds the
    canonical forms of its scalars and nothing else. *)
Lemma itemValues_scalars {num} {HN : JsNumber num} (items : list (jsvalue num)) values :
  existsb isObjectItem items = false →
  itemValues items values = Some (values ∪ scalarValues items).
Proof.
  revert values. induction items as [|item items IH]; intros values Hno.
  - simpl. f_equal. unfold scalarValues. simpl. set_solver.
  - simpl in Hno. apply orb_false_iff in Hno as [Hitem Hrest].
    unfold scalarValues in *.
    destruct item; simpl in *; try discriminate;
      rewrite IH by done; f_equal; set_solver.
Qed.

(** In every array the value loop, when it does not throw, adds at least
    the canonical forms of the scalars. *)
Lemma itemValues_includes {num} {HN : JsNumber num} (items : list (jsvalue num)) values result :
  itemValues items values = Some result →
  values ∪ scalarValues items ⊆ result.
Proof.
  revert values. induction items as [|item items IH]; intros values Hrun.
  - simpl in Hrun. injection Hrun as <-. unfold scalarValues. simpl. set_solver.
  - unfold scalarValues in *.
    destruct item; simpl in Hrun; simpl;
      try (apply IH in Hrun; set_solver).
    + destruct (Array_join _ _) as [s|]; simpl in Hrun; [| discriminate].
      apply IH in Hrun. set_solver.
    + destruct (has_own_key _ _); simpl in Hrun; [discriminate |].
      apply IH in Hrun. set_solver.
Qed.

Lemma existsb_isPrimitiveItem {num} (items : list (jsvalue num)) :
  existsb isObjectItem items = false →
  existsb isPrimitiveItem items = negb (bool_decide (items = [])).
Proof.
  destruct items as [|item items]; [done |].
  simpl. intros [Hitem _]%orb_false_iff.
  by destruct item.
Qed.

Lemma scalarValues_nil {num} {HN : JsNumber num} : scalarValues ([] : list (jsvalue num)) = ∅.
Proof. reflexivity. Qed.

Lemma size_pos_decide (values : gset string) :
  (0 <? size values)%nat = negb (bool_decide (values = ∅)).
Proof.
  case_bool_decide as Hempty; simpl.
  - subst. reflexivity.
  - apply Nat.ltb_lt. assert (size values ≠ 0%nat); [| lia].
    apply size_non_empty_iff. by intros ?%leibniz_equiv.
Qed.

(** C4, as stated, fails: the array [[null]] at the path ["a"] holds a
    scalar-or-null element, and no entry is emitted for it. *)
Lemma C4_all_null_array_counterexample :
  existsb isPrimitiveItem [JNull : jsvalue Z] = true
  ∧ extractFieldsFromJson (JArr [JNull] : jsvalue Z) "manifest" "a" = Some []
  ∧ ¬ (∃ fieldsMap analysis,
         extractFieldsFromJson (JArr [JNull] : jsvalue Z) "manifest" "a" = Some fieldsMap
         ∧ Map_get "a" fieldsMap = Some analysis).
Proof.
  split; [reflexivity |]. split; [reflexivity |].
  intros (fieldsMap & analysis & Hex & Hget).
  injection Hex as <-. discriminate Hget.
Qed.

(** C4, amended. An array with no composite element emits exactly one
    entry, at its own path (or ["[root]"]), of kind array and with the
    canonical forms of its scalar elements as value set, nulls being
    dropped, when it holds a scalar; and no entry when all its elements are
    null or absent. In an array that also holds composite elements and
    holds a scalar, the entry at the array's path is of kind array and its
    value set includes the canonical form of every scalar element. *)
Theorem C4_array_of_scalars {num} {HN : JsNumber num}
    (items : list (jsvalue num)) (configTypeName fieldPath : string) :
  (existsb isObjectItem items = false →
   extractFieldsFromJson (JArr items) configTypeName fieldPath =
     Some (if bool_decide (scalarValues items = ∅) then []
           else [(pathKey_of fieldPath,
                  newFieldAnalysis (scalarValues items) array)]))
  ∧ (∀ fieldsMap,
       extractFieldsFromJson (JArr items) configTypeName fieldPath = Some fieldsMap →
       scalarValues items ≠ ∅ →
       ∃ analysis,
         Map_get (pathKey_of fieldPath) fieldsMap = Some analysis
         ∧ fieldType analysis = array
         ∧ scalarValues items ⊆ distinctValues analysis).
Proof.
  split.
  - intros Hno. simpl. rewrite Hno. simpl.
    rewrite existsb_isPrimitiveItem by done.
    case_bool_decide as Hnil; simpl.
    + subst. reflexivity.
    + rewrite itemValues_scalars by done. simpl.
      rewrite (left_id_L ∅ (∪)), size_pos_decide.
      by case_bool_decide.
  - intros fieldsMap Hex Hsome. simpl in Hex.
    destruct (if existsb isObjectItem items && _ then _ else _) as [fieldsMap1|];
      simpl in Hex; [| discriminate].
    assert (existsb isPrimitiveItem items = true) as Hprim.
    { apply set_choose_L in Hsome as [s Hs].
      unfold scalarValues in Hs. apply elem_of_list_to_set in Hs.
      apply list_elem_of_omap in Hs as (item & Hitem & Hcanon).
      apply existsb_exists. exists item. split; [by apply list_elem_of_In |].
      by destruct item. }
    rewrite Hprim in Hex.
    destruct (itemValues items ∅) as [values|] eqn:Hvalues; simpl in Hex;
      [| discriminate].
    apply itemValues_includes in Hvalues.
    assert (values ≠ ∅) as Hne by set_solver.
    rewrite size_pos_decide in Hex. rewrite bool_decide_eq_false_2 in Hex by done.
    simpl in Hex. injection Hex as <-.
    eexists. split; [apply Map_get_set_eq |]. split; [reflexivity |].
    simpl. set_solver.
Qed.

(** C4 at the array [[1, null, "a"]] under the path ["tags"]. *)
Lemma C4_array_of_scalars_witness :
  existsb isObjectItem [JNum 1%Z; JNull; JStr "a"] = false
  ∧ extractFieldsFromJson (JArr [JNum 1%Z; JNull; JStr "a"]) "manifest" "tags" =
      Some [("tags", newFieldAnalysis {[ "1"; "a" ]} array)].
Proof.
  split; [reflexivity |].
  rewrite (proj1 (C4_array_of_scalars [JNum 1%Z; JNull; JStr "a"] "manifest" "tags"))
    by reflexivity.
  vm_compute. reflexivity.
Defined.

(** ** The union invariant *)

Lemma union_Map_set_known (mods : Map (gset string)) modName values added :
  Map_get modName mods = Some values →
  ⋃ (Map_set modName (values ∪ added) mods).*2 = ⋃ mods.*2 ∪ added.
Proof.
  induction mods as [|[modName' values'] mods IH]; simpl; [done |].
  destruct (String.eqb_spec modName' modName) as [->|Hne].
  - intros [= ->]. rewrite !fmap_cons, !union_list_cons. simpl. set_solver.
  - intros Hget. rewrite !fmap_cons, !union_list_cons, IH by done. simpl. set_solver.
Qed.

Lemma union_Map_set_fresh (mods : Map (gset string)) modName values :
  Map_get modName mods = None →
  ⋃ (Map_set modName values mods).*2 = ⋃ mods.*2 ∪ values.
Proof.
  induction mods as [|[modName' values'] mods IH]; simpl.
  - intros _. set_solver.
  - destruct (String.eqb_spec modName' modName) as [->|Hne]; [done |].
    intros Hget. rewrite !fmap_cons, !union_list_cons, IH by done. simpl. set_solver.
Qed.

Lemma mergeFieldAnalysis_unionInvariant c a modName :
  unionInvariant c → unionInvariant (mergeFieldAnalysis c a modName).
Proof.
  unfold unionInvariant. intros Hinv.
  destruct (Map_get modName (modValues c)) as [values|] eqn:Hget.
  - rewrite (mergeFieldAnalysis_known _ _ _ _ Hget). simpl.
    rewrite union_Map_set_known by done. by rewrite Hinv.
  - rewrite (mergeFieldAnalysis_fresh _ _ _ Hget). simpl.
    rewrite (union_Map_set_known _ _ ∅) by apply Map_get_set_eq.
    rewrite union_Map_set_fresh by done. rewrite Hinv. set_solver.
Qed.

Lemma newFieldAnalysis_unionInvariant t : unionInvariant (newFieldAnalysis ∅ t).
Proof. reflexivity. Qed.

Lemma Forall_Map_set {V} (P : string * V → Prop) k v (m : Map V) :
  P (k, v) → Forall P m → Forall P (Map_set k v m).
Proof.
  intros Hnew Hold. apply Forall_forall. intros [k' v'] Hin.
  apply elem_of_Map_set in Hin as [->|Hin]; [done |].
  by apply (proj1 (Forall_forall _ _) Hold).
Qed.

Lemma mergeField_unionInvariant modName m fieldPath a :
  Forall (λ entry, unionInvariant entry.2) m →
  Forall (λ entry, unionInvariant entry.2) (mergeField modName m fieldPath a).
Proof.
  intros Hall. destruct (Map_get fieldPath m) as [c|] eqn:Hget.
  - rewrite (mergeField_known _ _ _ _ _ Hget).
    apply Forall_Map_set; [| done]. simpl.
    apply mergeFieldAnalysis_unionInvariant.
    apply Map_get_elem_of in Hget.
    by apply (proj1 (Forall_forall _ _) Hall (fieldPath, c)).
  - rewrite (mergeField_fresh _ _ _ _ Hget).
    apply Forall_Map_set; simpl.
    + apply mergeFieldAnalysis_unionInvariant, newFieldAnalysis_unionInvariant.
    + apply Forall_Map_set; [apply newFieldAnalysis_unionInvariant | done].
Qed.

(** Every aggregate a driver passes through is reachable. *)
Lemma mergeModFields_reachable modName modFields m :
  reachable m → reachable (mergeModFields modName modFields m).
Proof.
  revert m. induction modFields as [|[fieldPath a] rest IH]; intros m Hm; simpl.
  - done.
  - apply IH. by constructor.
Qed.

Lemma analyzeDocument_reachable {num} {HN : JsNumber num}
    configTypeName modName (configData : jsvalue num) m m' :
  reachable m →
  analyzeDocument configTypeName modName configData m = Some m' → reachable m'.
Proof.
  intros Hm. unfold analyzeDocument. destruct (falsy configData).
  - by intros [= <-].
  - destruct (extractFieldsFromJson _ _ _) as [modFields|]; simpl; [| done].
    intros [= <-]. by apply mergeModFields_reachable.
Qed.

Lemma singleConfigLoop_reachable {num} {HN : JsNumber num}
    configTypeName (configStore : list (string * jsvalue num)) m m' :
  reachable m →
  singleConfigLoop configTypeName configStore m = Some m' → reachable m'.
Proof.
  revert m. induction configStore as [|[modName configData] rest IH]; intros m Hm; simpl.
  - by intros [= <-].
  - destruct (analyzeDocument _ _ _ _) as [m1|] eqn:Hdoc; simpl; [| done].
    apply IH. by eapply analyzeDocument_reachable.
Qed.

Lemma configFilesLoop_reachable {num} {HN : JsNumber num}
    configTypeName modName (configFiles : list (string * jsvalue num)) m m' :
  reachable m →
  configFilesLoop configTypeName modName configFiles m = Some m' → reachable m'.
Proof.
  revert m. induction configFiles as [|[filePath configData] rest IH]; intros m Hm; simpl.
  - by intros [= <-].
  - destruct (analyzeDocument _ _ _ _) as [m1|] eqn:Hdoc; simpl; [| done].
    apply IH. by eapply analyzeDocument_reachable.
Qed.

Lemma multiConfigLoop_reachable {num} {HN : JsNumber num}
    configTypeName (configStore : list (string * list (string * jsvalue num))) m m' :
  reachable m →
  multiConfigLoop configTypeName configStore m = Some m' → reachable m'.
Proof.
  revert m. induction configStore as [|[modName configFiles] rest IH]; intros m Hm; simpl.
  - by intros [= <-].
  - destruct (configFilesLoop _ _ _ _) as [m1|] eqn:Hfiles; simpl; [| done].
    apply IH. by eapply configFilesLoop_reachable.
Qed.

Lemma reachable_unionInvariant m :
  reachable m → Forall (λ entry, unionInvariant entry.2) m.
Proof.
  induction 1 as [|modName m fieldPath a _ IH].
  - constructor.
  - by apply mergeField_unionInvariant.
Qed.

(** C2: in every aggregate reached from the empty one by any number of
    merges, the values of every field are the union of the value sets of
    the mods recorded for it. *)
Theorem C2_union_invariant (fieldAnalysisMap : Map FieldAnalysis)
    (fieldPath : string) (analysis : FieldAnalysis) :
  reachable fieldAnalysisMap →
  (fieldPath, analysis) ∈ fieldAnalysisMap →
  distinctValues analysis = ⋃ (modValues analysis).*2.
Proof.
  intros Hreach Hin. apply reachable_unionInvariant in Hreach.
  by apply (proj1 (Forall_forall _ _) Hreach (fieldPath, analysis)).
Qed.

(** C2 after two merges of two mods into the field ["x"]. *)
Lemma C2_union_invariant_witness :
  distinctValues
    {| modValues := [("a.mod", {[ "1" ]}); ("b.mod", {[ "2" ]})];
       distinctValues := {[ "1"; "2" ]};
       fieldType := primitive |} =
  ⋃ [ ({[ "1" ]} : gset string); {[ "2" ]} ].
Proof.
  apply (C2_union_invariant
           (mergeField "b.mod"
              (mergeField "a.mod" [] "x" (newFieldAnalysis {[ "1" ]} primitive))
              "x" (newFieldAnalysis {[ "2" ]} array))
           "x").
  - do 2 constructor. constructor.
  - vm_compute. apply list_elem_of_here.
Defined.

(** ** Merging twice *)

Lemma mergeFieldAnalysis_absorbs c a modName :
  absorbedIn modName (mergeFieldAnalysis c a modName) a.
Proof.
  destruct (Map_get modName (modValues c)) as [values|] eqn:Hget.
  - rewrite (mergeFieldAnalysis_known _ _ _ _ Hget).
    exists (values ∪ distinctValues a). simpl.
    split; [apply Map_get_set_eq | set_solver].
  - rewrite (mergeFieldAnalysis_fresh _ _ _ Hget).
    exists (∅ ∪ distinctValues a). simpl.
    split; [apply Map_get_set_eq | set_solver].
Qed.

Lemma absorbedIn_mergeFieldAnalysis c a b modName :
  absorbedIn modName c a → absorbedIn modName (mergeFieldAnalysis c b modName) a.
Proof.
  intros (values & Hget & Hsub & Hall).
  rewrite (mergeFieldAnalysis_known _ _ _ _ Hget).
  exists (values ∪ distinctValues b). simpl.
  split; [apply Map_get_set_eq | set_solver].
Qed.

Lemma absorbedIn_id c a modName :
  absorbedIn modName c a → mergeFieldAnalysis c a modName = c.
Proof.
  intros (values & Hget & Hsub & Hall).
  rewrite (mergeFieldAnalysis_known _ _ _ _ Hget).
  destruct c as [mods distinct kind]; simpl in *.
  replace (values ∪ distinctValues a) with values by set_solver.
  replace (distinct ∪ distinctValues a) with distinct by set_solver.
  by rewrite Map_set_id.
Qed.

Lemma mergeField_absorbs modName m fieldPath a :
  absorbed modName (mergeField modName m fieldPath a) fieldPath a.
Proof.
  destruct (Map_get fieldPath m) as [c|] eqn:Hget.
  - rewrite (mergeField_known _ _ _ _ _ Hget).
    eexists. split; [apply Map_get_set_eq | apply mergeFieldAnalysis_absorbs].
  - rewrite (mergeField_fresh _ _ _ _ Hget).
    eexists. split; [apply Map_get_set_eq | apply mergeFieldAnalysis_absorbs].
Qed.

Lemma absorbed_mergeField modName m fieldPath a fieldPath' b :
  absorbed modName m fieldPath a →
  absorbed modName (mergeField modName m fieldPath' b) fieldPath a.
Proof.
  intros (c & Hget & Hc).
  destruct (decide (fieldPath' = fieldPath)) as [->|Hne].
  - rewrite (mergeField_known _ _ _ _ _ Hget).
    eexists. split; [apply Map_get_set_eq |].
    by apply absorbedIn_mergeFieldAnalysis.
  - exists c. split; [| done].
    destruct (Map_get fieldPath' m) as [c'|] eqn:Hget'.
    + rewrite (mergeField_known _ _ _ _ _ Hget').
      by rewrite Map_get_set_ne.
    + rewrite (mergeField_fresh _ _ _ _ Hget').
      by rewrite !Map_get_set_ne.
Qed.

Lemma absorbed_id modName m fieldPath a :
  absorbed modName m fieldPath a → mergeField modName m fieldPath a = m.
Proof.
  intros (c & Hget & Hc).
  rewrite (mergeField_known _ _ _ _ _ Hget), (absorbedIn_id _ _ _ Hc).
  by apply Map_set_id.
Qed.

Lemma absorbed_mergeModFields modName modFields m fieldPath a :
  absorbed modName m fieldPath a →
  absorbed modName (mergeModFields modName modFields m) fieldPath a.
Proof.
  revert m. induction modFields as [|[fieldPath' b] rest IH]; intros m Hm; simpl.
  - done.
  - by apply IH, absorbed_mergeField.
Qed.

Lemma mergeModFields_absorbs modName modFields m :
  Forall (λ entry, absorbed modName (mergeModFields modName modFields m) entry.1 entry.2)
         modFields.
Proof.
  revert m. induction modFields as [|[fieldPath a] rest IH]; intros m; simpl.
  - constructor.
  - constructor; [| apply IH]. simpl.
    apply absorbed_mergeModFields, mergeField_absorbs.
Qed.

Lemma mergeModFields_id modName modFields m :
  Forall (λ entry, absorbed modName m entry.1 entry.2) modFields →
  mergeModFields modName modFields m = m.
Proof.
  induction 1 as [|[fieldPath a] rest Hhead _ IH]; simpl in *; [done |].
  by rewrite (absorbed_id _ _ _ _ Hhead).
Qed.

(** C8: merging the fields of a document for a mod a second time leaves
    the aggregate as the first merge left it. *)
Theorem C8_merge_idempotent (modName : string) (modFields fieldAnalysisMap : Map FieldAnalysis) :
  mergeModFields modName modFields (mergeModFields modName modFields fieldAnalysisMap)
  = mergeModFields modName modFields fieldAnalysisMap.
Proof. apply mergeModFields_id, mergeModFields_absorbs. Qed.

(** A single call of [mergeFieldAnalysis] is idempotent as well. *)
Lemma mergeFieldAnalysis_idempotent c a modName :
  mergeFieldAnalysis (mergeFieldAnalysis c a modName) a modName
  = mergeFieldAnalysis c a modName.
Proof. apply absorbedIn_id, mergeFieldAnalysis_absorbs. Qed.

(** ** The first kind wins across merges *)

Lemma mergeFieldAnalysis_fieldType c a modName :
  fieldType (mergeFieldAnalysis c a modName) = fieldType c.
Proof. reflexivity. Qed.

(** Once a path has an entry, no merge changes its kind. *)
Lemma mergeField_keeps_fieldType modName m fieldPath c fieldPath' b :
  Map_get fieldPath m = Some c →
  ∃ c', Map_get fieldPath (mergeField modName m fieldPath' b) = Some c'
        ∧ fieldType c' = fieldType c.
Proof.
  intros Hget. destruct (decide (fieldPath' = fieldPath)) as [->|Hne].
  - rewrite (mergeField_known _ _ _ _ _ Hget).
    eexists. split; [apply Map_get_set_eq | reflexivity].
  - exists c. split; [| done].
    destruct (Map_get fieldPath' m) as [c'|] eqn:Hget'.
    + rewrite (mergeField_known _ _ _ _ _ Hget'). by rewrite Map_get_set_ne.
    + rewrite (mergeField_fresh _ _ _ _ Hget'). by rewrite !Map_get_set_ne.
Qed.

(** A path that is new to the aggregate gets the kind of the analysis
    merged first. *)
Lemma mergeField_first_fieldType modName m fieldPath a :
  Map_get fieldPath m = None →
  ∃ c, Map_get fieldPath (mergeField modName m fieldPath a) = Some c
       ∧ fieldType c = fieldType a.
Proof.
  intros Hget. rewrite (mergeField_fresh _ _ _ _ Hget).
  eexists. split; [apply Map_get_set_eq | reflexivity].
Qed.

(** ** Sorting *)

Section ArraySort.
Context {A : Type} (le : A → A → bool).
Hypothesis le_total : ∀ a b, le a b = true ∨ le b a = true.
Hypothesis le_trans : ∀ a b c, le a b = true → le b c = true → le a c = true.

Lemma sort_insert_Forall (P : A → Prop) x l :
  P x → Forall P l → Forall P (sort_insert le x l).
Proof.
  intros Hx. induction 1 as [|y l Hy Hl IH]; simpl.
  - by repeat constructor.
  - destruct (le x y); repeat constructor; done.
Qed.

Lemma sort_insert_sorted x l :
  StronglySorted (λ a b, le a b = true) l →
  StronglySorted (λ a b, le a b = true) (sort_insert le x l).
Proof.
  induction 1 as [|y l Hsorted IH Hy]; simpl.
  - by repeat constructor.
  - destruct (le x y) eqn:Hxy.
    + constructor; [by constructor |].
      constructor; [done |].
      eapply Forall_impl; [exact Hy |]. intros z Hyz. by eapply le_trans.
    + constructor; [exact IH |].
      apply sort_insert_Forall; [| done].
      destruct (le_total x y) as [Hle|Hle]; [congruence | done].
Qed.

Lemma Array_sort_sorted l : StronglySorted (λ a b, le a b = true) (Array_sort le l).
Proof.
  induction l as [|x l IH]; simpl; [constructor | by apply sort_insert_sorted].
Qed.

Lemma Array_sort_Forall (P : A → Prop) l : Forall P l → Forall P (Array_sort le l).
Proof.
  induction 1 as [|x l Hx Hl IH]; simpl; [constructor | by apply sort_insert_Forall].
Qed.
End ArraySort.

(** Sorting keeps the elements. *)
Lemma sort_insert_Permutation {A} (le : A → A → bool) x l :
  sort_insert le x l ≡ₚ x :: l.
Proof.
  induction l as [|y l IH]; simpl; [done |].
  destruct (le x y); [done |]. rewrite IH. apply Permutation_swap.
Qed.

Lemma Array_sort_Permutation {A} (le : A → A → bool) l : Array_sort le l ≡ₚ l.
Proof.
  induction l as [|x l IH]; simpl; [done |].
  by rewrite sort_insert_Permutation, IH.
Qed.

Lemma StronglySorted_impl {A} (R R' : A → A → Prop) l :
  (∀ a b, R a b → R' a b) → StronglySorted R l → StronglySorted R' l.
Proof.
  intros Himpl. induction 1 as [|x l Hsorted IH Hx]; constructor; [done |].
  eapply Forall_impl; [exact Hx | auto].
Qed.

(** *** The order of the code units *)

Lemma String_compare_Lt_trans a b c :
  String.compare a b = Lt → String.compare b c = Lt → String.compare a c = Lt.
Proof.
  revert b c. induction a as [|x a IH]; intros [|y b] [|z c]; simpl; try done.
  unfold Ascii.compare.
  destruct (N.compare_spec (Ascii.N_of_ascii x) (Ascii.N_of_ascii y)) as [Hxy|Hxy|Hxy];
    destruct (N.compare_spec (Ascii.N_of_ascii y) (Ascii.N_of_ascii z)) as [Hyz|Hyz|Hyz];
    destruct (N.compare_spec (Ascii.N_of_ascii x) (Ascii.N_of_ascii z)) as [Hxz|Hxz|Hxz];
    try done; try lia.
  apply IH.
Qed.

Lemma String_leb_trans a b c :
  String.leb a b = true → String.leb b c = true → String.leb a c = true.
Proof.
  unfold String.leb.
  destruct (String.compare a b) eqn:Hab; [| | done];
    destruct (String.compare b c) eqn:Hbc; try done; intros _ _.
  - apply String.compare_eq_iff in Hab as ->. by rewrite Hbc.
  - apply String.compare_eq_iff in Hab as ->. by rewrite Hbc.
  - apply String.compare_eq_iff in Hbc as ->. by rewrite Hab.
  - by rewrite (String_compare_Lt_trans _ _ _ Hab Hbc).
Qed.

Lemma sortedValues_sorted values : StronglySorted byCodeUnits (sortedValues values).
Proof.
  apply (Array_sort_sorted String.leb String.leb_total String_leb_trans).
Qed.

(** The sorted list holds the values of the set, each once. *)
Lemma sortedValues_elements values : sortedValues values ≡ₚ elements values.
Proof. apply Array_sort_Permutation. Qed.

Lemma codeUnitCompare_le a b : (codeUnitCompare a b <= 0)%Z ↔ String.leb a b = true.
Proof.
  unfold codeUnitCompare, String.leb. destruct (String.compare a b); split; (done || lia).
Qed.

Lemma codeUnitCompare_total a b :
  (codeUnitCompare a b <= 0)%Z ∨ (codeUnitCompare b a <= 0)%Z.
Proof. rewrite !codeUnitCompare_le. apply String.leb_total. Qed.

Lemma codeUnitCompare_trans a b c :
  (codeUnitCompare a b <= 0)%Z → (codeUnitCompare b c <= 0)%Z →
  (codeUnitCompare a c <= 0)%Z.
Proof. rewrite !codeUnitCompare_le. apply String_leb_trans. Qed.

(** ** The summaries *)

Lemma pushModInfo_Forall (P : PerModFieldInfo.t → Prop) modName info perMod perMod' :
  P info →
  Forall (λ entry, Forall P entry.2) perMod →
  pushModInfo modName info perMod = Some perMod' →
  Forall (λ entry, Forall P entry.2) perMod'.
Proof.
  intros Hinfo Hall. unfold pushModInfo.
  destruct (Map_get modName perMod) as [infos|] eqn:Hget.
  - intros [= <-]. apply Forall_Map_set; [| done]. simpl.
    apply Forall_app. split; [| by repeat constructor].
    apply Map_get_elem_of in Hget.
    by apply (proj1 (Forall_forall _ _) Hall (modName, infos)).
  - destruct (inherited modName); [done |].
    intros [= <-]. apply Forall_Map_set; [| done]. by repeat constructor.
Qed.

Lemma pushFieldMods_Forall (P : PerModFieldInfo.t → Prop) fieldPath kind mods perMod perMod' :
  (∀ values, P (PerModFieldInfo.mk fieldPath kind (sortedValues values))) →
  Forall (λ entry, Forall P entry.2) perMod →
  pushFieldMods fieldPath kind mods perMod = Some perMod' →
  Forall (λ entry, Forall P entry.2) perMod'.
Proof.
  intros HP. revert perMod.
  induction mods as [|[modName values] mods IH]; intros perMod Hall; simpl.
  - by intros [= <-].
  - destruct (pushModInfo _ _ _) as [perMod1|] eqn:Hpush; simpl; [| done].
    apply IH. eapply pushModInfo_Forall; [apply HP | exact Hall | exact Hpush].
Qed.

Lemma pushFields_Forall (P : PerModFieldInfo.t → Prop) m perMod perMod' :
  (∀ fieldPath kind values, P (PerModFieldInfo.mk fieldPath kind (sortedValues values))) →
  Forall (λ entry, Forall P entry.2) perMod →
  pushFields m perMod = Some perMod' →
  Forall (λ entry, Forall P entry.2) perMod'.
Proof.
  intros HP. revert perMod.
  induction m as [|[fieldPath analysis] m IH]; intros perMod Hall; simpl.
  - by intros [= <-].
  - destruct (pushFieldMods _ _ _ _) as [perMod1|] eqn:Hpush; simpl; [| done].
    apply IH. eapply pushFieldMods_Forall; [intros; apply HP | exact Hall | exact Hpush].
Qed.

Section SummaryFacts.
Variable localeCompare : string → string → Z.
Hypothesis localeCompare_total :
  ∀ a b, (localeCompare a b <= 0)%Z ∨ (localeCompare b a <= 0)%Z.
Hypothesis localeCompare_trans :
  ∀ a b c, (localeCompare a b <= 0)%Z → (localeCompare b c <= 0)%Z →
           (localeCompare a c <= 0)%Z.

Lemma locale_le_true a b :
  locale_le localeCompare a b = true ↔ (localeCompare a b <= 0)%Z.
Proof. apply Z.leb_le. Qed.

Lemma sort_by_locale_sorted {A} (key : A → string) (l : list A) :
  StronglySorted (λ a b, (localeCompare (key a) (key b) <= 0)%Z)
    (Array_sort (λ a b, locale_le localeCompare (key a) (key b)) l).
Proof.
  eapply StronglySorted_impl; [| apply Array_sort_sorted].
  - intros a b Hle. by apply locale_le_true.
  - intros a b. rewrite !locale_le_true. apply localeCompare_total.
  - intros a b c. rewrite !locale_le_true. apply localeCompare_trans.
Qed.

Lemma buildPerModSummaries_sorted m perMod modName infos :
  buildPerModSummaries localeCompare m = Some perMod →
  (modName, infos) ∈ perMod →
  StronglySorted (byFieldPath localeCompare) infos
  ∧ Forall (λ info, StronglySorted byCodeUnits (PerModFieldInfo.values info)) infos.
Proof.
  unfold buildPerModSummaries.
  destruct (pushFields m []) as [perMod0|] eqn:Hpush; simpl; [| done].
  intros [= <-] Hin.
  apply list_elem_of_In, in_map_iff in Hin as ([modName0 infos0] & [= <- <-] & Hin0).
  split; [apply (sort_by_locale_sorted PerModFieldInfo.fieldPath) |].
  apply Array_sort_Forall.
  eapply pushFields_Forall in Hpush; [| | constructor].
  - apply list_elem_of_In in Hin0.
    by apply (proj1 (Forall_forall _ _) Hpush (modName0, infos0)).
  - intros. apply sortedValues_sorted.
Qed.

Lemma fieldMods_sorted mods :
  StronglySorted (byModName localeCompare) (fieldMods localeCompare mods)
  ∧ Forall (λ info, StronglySorted byCodeUnits (PerFieldModInfo.values info))
           (fieldMods localeCompare mods).
Proof.
  split; [apply (sort_by_locale_sorted PerFieldModInfo.modName) |].
  apply Array_sort_Forall, Forall_forall.
  intros info ([modName values] & <- & _)%list_elem_of_In%in_map_iff.
  apply sortedValues_sorted.
Qed.

Lemma buildPerFieldLoop_sorted m perField :
  Forall (λ entry, sortedFieldSummary localeCompare entry.2) perField →
  Forall (λ entry, sortedFieldSummary localeCompare entry.2)
         (buildPerFieldLoop localeCompare m perField).
Proof.
  revert perField. induction m as [|[fieldPath analysis] m IH]; intros perField Hall; simpl.
  - done.
  - apply IH. unfold assignField.
    destruct (String.eqb fieldPath "__proto__"); [done |].
    apply Forall_Map_set; [| done]. simpl.
    destruct (fieldMods_sorted (modValues analysis)) as [Hmods Hvalues].
    repeat split; simpl; [done | done | apply sortedValues_sorted].
Qed.

Lemma writeAnalysisSummaries_sorted m summaries :
  writeAnalysisSummaries localeCompare m = Some summaries →
  sortedSummaries localeCompare summaries.
Proof.
  unfold writeAnalysisSummaries.
  destruct (buildPerModSummaries localeCompare m) as [perMod|] eqn:Hmod; simpl; [| done].
  intros [= <-]. split; simpl.
  - intros modName infos Hin. by eapply buildPerModSummaries_sorted.
  - intros fieldPath summary Hin.
    assert (Forall (λ entry, sortedFieldSummary localeCompare entry.2)
                   (buildPerFieldSummaries localeCompare m)) as Hall
      by (apply buildPerFieldLoop_sorted; constructor).
    by apply (proj1 (Forall_forall _ _) Hall (fieldPath, summary)).
Qed.

Lemma runAnalyses_sorted jobs :
  Forall (λ job, ∀ summaries, job.2 = Some summaries →
                              sortedSummaries localeCompare summaries) jobs →
  Forall (λ written, sortedSummaries localeCompare written.2) (runAnalyses jobs).1.
Proof.
  induction 1 as [|[configTypeName [summaries|]] jobs Hjob _ IH]; simpl.
  - constructor.
  - destruct (runAnalyses jobs) as [written completed]. simpl in *.
    constructor; [by apply Hjob | done].
  - constructor.
Qed.

Lemma analyzeSingleConfigType_sorted {num} {HN : JsNumber num}
    (configStore : list (string * jsvalue num)) configTypeName summaries :
  analyzeSingleConfigType localeCompare configStore configTypeName = Some summaries →
  sortedSummaries localeCompare summaries.
Proof.
  unfold analyzeSingleConfigType.
  destruct (singleConfigLoop _ _ _) as [m|]; simpl; [| done].
  apply writeAnalysisSummaries_sorted.
Qed.

Lemma analyzeMultiConfigType_sorted {num} {HN : JsNumber num}
    (configStore : list (string * list (string * jsvalue num))) configTypeName summaries :
  analyzeMultiConfigType localeCompare configStore configTypeName = Some summaries →
  sortedSummaries localeCompare summaries.
Proof.
  unfold analyzeMultiConfigType.
  destruct (multiConfigLoop _ _ _) as [m|]; simpl; [| done].
  apply writeAnalysisSummaries_sorted.
Qed.

(** C9: two runs of the analysis on the same stores write the same
    summaries, and in everything written the rows of each mod are ordered
    by field path, the rows of each field by mod name, and each list of
    values by code units. The collation of [localeCompare] is assumed to
    order any two strings, transitively. *)
Theorem C9_runs_agree_and_are_sorted {num} {HN : JsNumber num}
    (ctx : AnalysisContext num) (run1 run2 : list (string * Summaries) * bool) :
  analyzeModConfigs localeCompare ctx = run1 →
  analyzeModConfigs localeCompare ctx = run2 →
  run1 = run2
  ∧ Forall (λ written, sortedSummaries localeCompare written.2) run1.1.
Proof.
  intros <- <-. split; [reflexivity |].
  apply runAnalyses_sorted.
  repeat (apply List.Forall_cons;
          [ simpl; intros summaries;
            (apply analyzeSingleConfigType_sorted
             || apply analyzeMultiConfigType_sorted) |]).
  apply List.Forall_nil.
Qed.
End SummaryFacts.

(** C9 on a store of two mods, with the order of the code units as the
    collation. *)
Lemma C9_runs_agree_and_are_sorted_witness :
  analyzeModConfigs codeUnitCompare Docs.context =
    analyzeModConfigs codeUnitCompare Docs.context
  ∧ Forall (λ written, sortedSummaries codeUnitCompare written.2)
           (analyzeModConfigs codeUnitCompare Docs.context).1.
Proof.
  exact (C9_runs_agree_and_are_sorted codeUnitCompare
           codeUnitCompare_total codeUnitCompare_trans Docs.context _ _
           eq_refl eq_refl).
Defined.

(** ** Further facts about the drivers and the extractor *)

(** The aggregate a driver ends with satisfies the union invariant. *)
Lemma singleConfigLoop_unionInvariant {num} {HN : JsNumber num}
    configTypeName (configStore : list (string * jsvalue num)) m :
  singleConfigLoop configTypeName configStore [] = Some m →
  Forall (λ entry, unionInvariant entry.2) m.
Proof.
  intros Hrun. eapply reachable_unionInvariant, singleConfigLoop_reachable;
    [constructor | exact Hrun].
Qed.

Lemma multiConfigLoop_unionInvariant {num} {HN : JsNumber num}
    configTypeName (configStore : list (string * list (string * jsvalue num))) m :
  multiConfigLoop configTypeName configStore [] = Some m →
  Forall (λ entry, unionInvariant entry.2) m.
Proof.
  intros Hrun. eapply reachable_unionInvariant, multiConfigLoop_reachable;
    [constructor | exact Hrun].
Qed.

(** The names of the files of a mod play no part: two records holding the
    same documents in the same order give the same aggregate. *)
Lemma configFilesLoop_ignores_filePath {num} {HN : JsNumber num}
    configTypeName modName (configFiles configFiles' : list (string * jsvalue num)) m :
  configFiles.*2 = configFiles'.*2 →
  configFilesLoop configTypeName modName configFiles m =
  configFilesLoop configTypeName modName configFiles' m.
Proof.
  revert configFiles' m.
  induction configFiles as [|[filePath configData] rest IH];
    intros [|[filePath' configData'] rest'] m; simpl; try done.
  intros [= <- Hrest].
  destruct (analyzeDocument _ _ _ _) as [m1|]; simpl; [| done].
  by apply IH.
Qed.

(** An array has no scalar exactly when none of its elements is one. *)
Lemma scalarValues_empty {num} {HN : JsNumber num} (items : list (jsvalue num)) :
  scalarValues items = ∅ ↔ Forall (λ item, canonical item = None) items.
Proof.
  unfold scalarValues. induction items as [|item items IH]; simpl.
  - split; [constructor | done].
  - destruct (canonical item) as [s|] eqn:Hcanon; simpl.
    + split; [set_solver |]. intros Hall. inversion Hall; congruence.
    + rewrite IH. split; [by constructor |]. by inversion 1.
Qed.

(** A document that is falsy is skipped by the drivers. *)
Lemma analyzeDocument_falsy {num} {HN : JsNumber num}
    configTypeName modName (configData : jsvalue num) m :
  falsy configData = true →
  analyzeDocument configTypeName modName configData m = Some m.
Proof. intros Hfalsy. unfold analyzeDocument. by rewrite Hfalsy. Qed.

(** The empty object contributes no field. *)
Lemma extract_empty_object {num} {HN : JsNumber num} configTypeName fieldPath :
  extractFieldsFromJson (JObj [] : jsvalue num) configTypeName fieldPath = Some [].
Proof. reflexivity. Qed.

(** The empty array contributes no field. *)
Lemma extract_empty_array {num} {HN : JsNumber num} configTypeName fieldPath :
  extractFieldsFromJson (JArr [] : jsvalue num) configTypeName fieldPath = Some [].
Proof. reflexivity. Qed.

(** * Further properties of the engine *)

(** ** Maps keep their keys distinct *)

Lemma Map_keys_set {V} k (v : V) m :
  Map_keys (Map_set k v m) =
    if Map_has k m then Map_keys m else (Map_keys m ++ [k])%list.
Proof.
  unfold Map_keys, Map_has. induction m as [|[k' v'] m IH]; csimpl; [done |].
  destruct (String.eqb_spec k' k) as [->|Hne]; [done |].
  csimpl. rewrite IH. by destruct (Map_get k m).
Qed.

Lemma Map_get_None_keys {V} k (m : Map V) : Map_get k m = None ↔ k ∉ Map_keys m.
Proof.
  unfold Map_keys. induction m as [|[k' v'] m IH]; csimpl.
  - split; [intros _; apply not_elem_of_nil | done].
  - rewrite not_elem_of_cons.
    destruct (String.eqb_spec k' k) as [->|Hne]; [naive_solver |].
    rewrite IH. naive_solver.
Qed.

Lemma Map_set_NoDup {V} k (v : V) m :
  NoDup (Map_keys m) → NoDup (Map_keys (Map_set k v m)).
Proof.
  intros Hm. rewrite Map_keys_set. unfold Map_has.
  destruct (Map_get k m) eqn:Hget; [done |].
  apply NoDup_app. split; [done |]. split; [| apply NoDup_singleton].
  intros k' Hin ->%list_elem_of_singleton.
  by apply Map_get_None_keys in Hget.
Qed.

Lemma Map_set_set {V} k (v v' : V) m : Map_set k v (Map_set k v' m) = Map_set k v m.
Proof.
  induction m as [|[k0 v0] m IH]; simpl.
  - by rewrite String.eqb_refl.
  - destruct (String.eqb_spec k0 k) as [->|Hne]; simpl.
    + by rewrite String.eqb_refl.
    + destruct (String.eqb_spec k0 k); [done |]. by rewrite IH.
Qed.

Lemma Map_get_Some_elem {V} k (m : Map V) :
  NoDup (Map_keys m) → ∀ v, (k, v) ∈ m → Map_get k m = Some v.
Proof.
  unfold Map_keys. induction m as [|[k' v'] m IH]; csimpl; intros Hnd v Hin.
  - by apply elem_of_nil in Hin.
  - apply NoDup_cons in Hnd as [Hk' Hnd].
    apply elem_of_cons in Hin as [[= -> ->]|Hin].
    + by rewrite String.eqb_refl.
    + destruct (String.eqb_spec k' k) as [->|Hne]; [| by apply IH].
      exfalso. apply Hk'. apply list_elem_of_fmap. by exists (k, v).
Qed.

(** ** What the extractor emits *)

Lemma extract_array_eq {num} {HN : JsNumber num} (items : list (jsvalue num))
    configTypeName fieldPath :
  extractFieldsFromJson (JArr items) configTypeName fieldPath =
    (fieldsMap1 ←
       (if existsb isObjectItem items && (0 <? length items)%nat then
          mergedFields ←
            mergeItems (λ item, extractFieldsFromJson item configTypeName "") items [];
          Some (addPrefixed fieldPath mergedFields [])
        else Some []);
     if existsb isPrimitiveItem items then
       values ← itemValues items ∅;
       if (0 <? size values)%nat
       then Some (Map_set (pathKey_of fieldPath)
                          (newFieldAnalysis values array) fieldsMap1)
       else Some fieldsMap1
     else Some fieldsMap1).
Proof. reflexivity. Qed.

Lemma extract_object_eq {num} {HN : JsNumber num} (entries : list (string * jsvalue num))
    configTypeName fieldPath :
  extractFieldsFromJson (JObj entries) configTypeName fieldPath =
    objectEntries (λ value newPath, extractFieldsFromJson value configTypeName newPath)
                  configTypeName fieldPath entries [].
Proof. reflexivity. Qed.

Lemma extractedMap_nil : extractedMap [].
Proof. split; [apply NoDup_nil_2 | constructor]. Qed.

Lemma extractedMap_set k a m :
  extractedAnalysis a → extractedMap m → extractedMap (Map_set k a m).
Proof.
  intros Ha [Hnd Hall]. split; [by apply Map_set_NoDup | by apply Forall_Map_set].
Qed.

Lemma extractedAnalysis_new s t :
  t ≠ object → extractedAnalysis (newFieldAnalysis {[ s ]} t).
Proof. intros Ht. repeat split; [done |]. simpl. set_solver. Qed.

Lemma mergeItemFields_extracted itemFields mergedFields :
  Forall (λ entry, extractedAnalysis entry.2) itemFields →
  extractedMap mergedFields →
  extractedMap (mergeItemFields itemFields mergedFields).
Proof.
  intros Hitems. revert mergedFields.
  induction Hitems as [|[key a] rest (Hmods & Hkind & Hvalues) _ IH];
    intros mergedFields Hmerged; simpl; [done |].
  apply IH. unfold Map_has.
  destruct (Map_get key mergedFields) as [c|] eqn:Hget.
  - rewrite Hget. apply extractedMap_set; [| done].
    destruct Hmerged as [_ Hall].
    apply Map_get_elem_of in Hget.
    destruct (proj1 (Forall_forall _ _) Hall (key, c) Hget) as (Hc1 & Hc2 & Hc3).
    repeat split; simpl in *; [done | done | set_solver].
  - rewrite Map_get_set_eq, Map_set_set. apply extractedMap_set; [| done].
    repeat split; simpl in *; [done | set_solver].
Qed.

Lemma mergeItems_extracted {num} (extract : jsvalue num → option (Map FieldAnalysis))
    items mergedFields result :
  Forall (λ item, ∀ m, extract item = Some m → extractedMap m) items →
  extractedMap mergedFields →
  mergeItems extract items mergedFields = Some result →
  extractedMap result.
Proof.
  intros Hitems. revert mergedFields.
  induction Hitems as [|item rest Hitem _ IH]; intros mergedFields Hmerged; simpl.
  - by intros [= <-].
  - destruct item; try apply IH; try done.
    destruct (extract _) as [itemFields|] eqn:Hex; simpl; [| done].
    apply IH. apply mergeItemFields_extracted; [| done].
    by destruct (Hitem _ eq_refl).
Qed.

Lemma addPrefixed_extracted fieldPath mergedFields fieldsMap :
  Forall (λ entry, extractedAnalysis entry.2) mergedFields →
  extractedMap fieldsMap →
  extractedMap (addPrefixed fieldPath mergedFields fieldsMap).
Proof.
  intros Hmerged. revert fieldsMap.
  induction Hmerged as [|[key a] rest Ha _ IH]; intros fieldsMap Hmap; simpl; [done |].
  by apply IH, extractedMap_set.
Qed.

Lemma setAll_extracted nestedFields fieldsMap :
  Forall (λ entry, extractedAnalysis entry.2) nestedFields →
  extractedMap fieldsMap →
  extractedMap (setAll nestedFields fieldsMap).
Proof.
  intros Hnested. revert fieldsMap.
  induction Hnested as [|[key a] rest Ha _ IH]; intros fieldsMap Hmap; simpl; [done |].
  by apply IH, extractedMap_set.
Qed.

Lemma itemValues_nonempty_start {num} {HN : JsNumber num} (items : list (jsvalue num))
    values result :
  itemValues items values = Some result → values ⊆ result.
Proof.
  revert values. induction items as [|item items IH]; intros values; simpl.
  - by intros [= <-].
  - destruct item; simpl; try (intros Hrun; apply IH in Hrun; set_solver).
    + destruct (Array_join _ _); simpl; [| done].
      intros Hrun; apply IH in Hrun; set_solver.
    + destruct (has_own_key _ _); simpl; [done |].
      intros Hrun; apply IH in Hrun; set_solver.
Qed.

Lemma objectEntries_extracted {num} {HN : JsNumber num}
    (extract : jsvalue num → string → option (Map FieldAnalysis))
    configTypeName fieldPath entries fieldsMap result :
  Forall (λ entry : string * jsvalue num,
            ∀ p m, extract entry.2 p = Some m → extractedMap m) entries →
  extractedMap fieldsMap →
  objectEntries extract configTypeName fieldPath entries fieldsMap = Some result →
  extractedMap result.
Proof.
  intros Hentries. revert fieldsMap.
  induction Hentries as [|[key value] rest Hvalue _ IH]; intros fieldsMap Hmap; simpl.
  - by intros [= <-].
  - destruct value; simpl;
      try (apply IH, extractedMap_set; [by apply extractedAnalysis_new | done]).
    + destruct (extract _ _) as [nested|] eqn:Hex; simpl; [| done].
      apply IH, setAll_extracted; [| done]. by destruct (Hvalue _ _ Hex).
    + destruct (extract _ _) as [nested|] eqn:Hex; simpl; [| done].
      apply IH, setAll_extracted; [| done]. by destruct (Hvalue _ _ Hex).
Qed.

Lemma extract_extractedMap {num} {HN : JsNumber num} (obj : jsvalue num)
    configTypeName :
  ∀ fieldPath fieldsMap,
    extractFieldsFromJson obj configTypeName fieldPath = Some fieldsMap →
    extractedMap fieldsMap.
Proof.
  induction obj as [| | b | n | s | items IH | entries IH] using jsvalue_nested_ind;
    intros fieldPath fieldsMap.
  - intros [= <-]. apply extractedMap_nil.
  - intros [= <-]. apply extractedMap_nil.
  - intros [= <-]. apply (extractedMap_set _ _ []); [| apply extractedMap_nil].
    repeat split; [done |]. simpl. set_solver.
  - intros [= <-]. apply (extractedMap_set _ _ []); [| apply extractedMap_nil].
    repeat split; [done |]. simpl. set_solver.
  - intros [= <-]. apply (extractedMap_set _ _ []); [| apply extractedMap_nil].
    repeat split; [done |]. simpl. set_solver.
  - rewrite extract_array_eq.
    destruct (if existsb isObjectItem items && _ then _ else _)
      as [fieldsMap1|] eqn:Hcomposite; simpl; [| done].
    assert (extractedMap fieldsMap1) as Hmap1.
    { destruct (existsb isObjectItem items && _).
      - destruct (mergeItems _ _ _) as [mergedFields|] eqn:Hmerge;
          simpl in Hcomposite; [| done].
        injection Hcomposite as <-.
        apply mergeItems_extracted in Hmerge; [| | apply extractedMap_nil].
        + apply addPrefixed_extracted; [by destruct Hmerge | apply extractedMap_nil].
        + eapply Forall_impl; [exact IH |]. intros item Hitem m. apply Hitem.
      - injection Hcomposite as <-. apply extractedMap_nil. }
    destruct (existsb isPrimitiveItem items); [| by intros [= <-]].
    destruct (itemValues items ∅) as [values|]; simpl; [| done].
    destruct (0 <? size values)%nat eqn:Hsize; intros [= <-]; [| done].
    apply extractedMap_set; [| done].
    repeat split; [done |]. simpl. intros ->.
    by rewrite size_empty in Hsize.
  - rewrite extract_object_eq. apply objectEntries_extracted; [| apply extractedMap_nil].
    eapply Forall_impl; [exact IH |]. intros [key value] Hvalue p m. apply Hvalue.
Qed.

(** X1: the paths of an extraction result are pairwise distinct, so each
    path has exactly one entry and [Map_get] finds it. *)
Theorem extract_paths_distinct {num} {HN : JsNumber num} (obj : jsvalue num)
    (configTypeName fieldPath : string) (fieldsMap : Map FieldAnalysis) :
  extractFieldsFromJson obj configTypeName fieldPath = Some fieldsMap →
  NoDup (Map_keys fieldsMap)
  ∧ ∀ path analysis, (path, analysis) ∈ fieldsMap ↔ Map_get path fieldsMap = Some analysis.
Proof.
  intros [Hnd _]%extract_extractedMap. split; [done |].
  intros path analysis. split; [by apply Map_get_Some_elem | apply Map_get_elem_of].
Qed.

Lemma extract_paths_distinct_witness :
  NoDup (Map_keys [("tags.k", newFieldAnalysis {[ "2" ]} primitive);
                   ("tags", newFieldAnalysis {[ "1"; "[object Object]" ]} array)])
  ∧ ∀ path analysis,
      (path, analysis) ∈ [("tags.k", newFieldAnalysis {[ "2" ]} primitive);
                          ("tags", newFieldAnalysis {[ "1"; "[object Object]" ]} array)]
      ↔ Map_get path [("tags.k", newFieldAnalysis {[ "2" ]} primitive);
                      ("tags", newFieldAnalysis {[ "1"; "[object Object]" ]} array)]
        = Some analysis.
Proof.
  apply (extract_paths_distinct Docs.tags "manifest" "").
  vm_compute. reflexivity.
Defined.

(** X2: every entry the extractor emits carries no provenance, has kind
    primitive or array (never object), and holds at least one value. *)
Theorem extract_entries_shape {num} {HN : JsNumber num} (obj : jsvalue num)
    (configTypeName fieldPath : string) (fieldsMap : Map FieldAnalysis)
    (path : string) (analysis : FieldAnalysis) :
  extractFieldsFromJson obj configTypeName fieldPath = Some fieldsMap →
  (path, analysis) ∈ fieldsMap →
  modValues analysis = []
  ∧ (fieldType analysis = primitive ∨ fieldType analysis = array)
  ∧ distinctValues analysis ≠ ∅.
Proof.
  intros [_ Hall]%extract_extractedMap Hin.
  destruct (proj1 (Forall_forall _ _) Hall (path, analysis) Hin) as (Hm & Hk & Hv).
  repeat split; [done | | done]. simpl in Hk. destruct (fieldType analysis); auto. done.
Qed.

Lemma extract_entries_shape_witness :
  modValues (newFieldAnalysis {[ "2" ]} primitive) = []
  ∧ (fieldType (newFieldAnalysis {[ "2" ]} primitive) = primitive
     ∨ fieldType (newFieldAnalysis {[ "2" ]} primitive) = array)
  ∧ distinctValues (newFieldAnalysis {[ "2" ]} primitive) ≠ ∅.
Proof.
  apply (extract_entries_shape Docs.tags "manifest" ""
           [("tags.k", newFieldAnalysis {[ "2" ]} primitive);
            ("tags", newFieldAnalysis {[ "1"; "[object Object]" ]} array)]
           "tags.k").
  - vm_compute. reflexivity.
  - apply list_elem_of_here.
Defined.

(** ** When the extractor throws *)

Lemma Array_join_is_Some {A} (elem : A → option string) items :
  Forall (λ item, is_Some (elem item)) items → is_Some (Array_join elem items).
Proof.
  induction 1 as [|item rest [s Hs] _ IH]; [by eexists |].
  destruct rest as [|item' rest]; [by eexists |].
  change (Array_join elem (item :: item' :: rest))
    with (s ← elem item; r ← Array_join elem (item' :: rest); Some (s ++ "," ++ r)).
  rewrite Hs. destruct IH as [r ->]. by eexists.
Qed.

Lemma js_String_is_Some {num} {HN : JsNumber num} (v : jsvalue num) :
  noToStringKey v = true → is_Some (js_String v).
Proof.
  induction v as [| | b | n | s | items IH | entries IH] using jsvalue_nested_ind;
    simpl; intros Hno; try by eexists.
  - apply Array_join_is_Some.
    pose proof (proj1 (forallb_forall _ _) Hno) as Hall.
    apply Forall_forall. intros item Hin.
    pose proof (proj1 (Forall_forall _ _) IH item Hin) as Hitem.
    apply list_elem_of_In, Hall in Hin.
    destruct item; try (by eexists); by apply Hitem.
  - apply andb_true_iff in Hno as [Hkey _].
    destruct (has_own_key _ _); [done | by eexists].
Qed.

Lemma itemValues_is_Some {num} {HN : JsNumber num} (items : list (jsvalue num)) values :
  forallb noToStringKey items = true → is_Some (itemValues items values).
Proof.
  revert values. induction items as [|item items IH]; intros values; simpl.
  - by eexists.
  - intros [Hitem Hrest]%andb_true_iff.
    destruct (js_String_is_Some item Hitem) as [s Hs].
    destruct item; try (by apply IH);
      simpl; simpl in Hs; rewrite Hs; simpl; by apply IH.
Qed.

Lemma mergeItems_is_Some {num} (extract : jsvalue num → option (Map FieldAnalysis))
    items mergedFields :
  Forall (λ item, is_Some (extract item)) items →
  is_Some (mergeItems extract items mergedFields).
Proof.
  intros Hitems. revert mergedFields.
  induction Hitems as [|item rest [m Hm] _ IH]; intros mergedFields; simpl.
  - by eexists.
  - destruct item; try apply IH. rewrite Hm. simpl. apply IH.
Qed.

Lemma objectEntries_is_Some {num} {HN : JsNumber num}
    (extract : jsvalue num → string → option (Map FieldAnalysis))
    configTypeName fieldPath entries fieldsMap :
  Forall (λ entry : string * jsvalue num, ∀ p, is_Some (extract entry.2 p)) entries →
  is_Some (objectEntries extract configTypeName fieldPath entries fieldsMap).
Proof.
  intros Hentries. revert fieldsMap.
  induction Hentries as [|[key value] rest Hvalue _ IH]; intros fieldsMap; simpl.
  - by eexists.
  - destruct value; simpl; try apply IH.
    + destruct (Hvalue (newPath_of configTypeName fieldPath key)) as [m Hm].
      unfold newPath_of in Hm. simpl in Hm. rewrite Hm. simpl. apply IH.
    + destruct (Hvalue (newPath_of configTypeName fieldPath key)) as [m Hm].
      unfold newPath_of in Hm. simpl in Hm. rewrite Hm. simpl. apply IH.
Qed.

Lemma extract_is_Some {num} {HN : JsNumber num} (obj : jsvalue num) configTypeName :
  noToStringKey obj = true →
  ∀ fieldPath, is_Some (extractFieldsFromJson obj configTypeName fieldPath).
Proof.
  induction obj as [| | b | n | s | items IH | entries IH] using jsvalue_nested_ind;
    intros Hno fieldPath; try by eexists.
  - rewrite extract_array_eq. simpl in Hno.
    assert (is_Some (mergeItems (λ item, extractFieldsFromJson item configTypeName "")
                                items [])) as [mergedFields Hmerged].
    { apply mergeItems_is_Some. apply Forall_forall. intros item Hin.
      apply (proj1 (Forall_forall _ _) IH item Hin).
      apply list_elem_of_In in Hin. by apply (proj1 (forallb_forall _ _) Hno). }
    rewrite Hmerged. simpl.
    destruct (itemValues_is_Some items ∅ Hno) as [values Hvalues].
    rewrite Hvalues. simpl.
    destruct (existsb isObjectItem items && _); simpl;
      destruct (existsb isPrimitiveItem items); simpl;
      try destruct (0 <? size values)%nat; by eexists.
  - rewrite extract_object_eq. simpl in Hno.
    apply andb_true_iff in Hno as [_ Hno].
    apply objectEntries_is_Some. apply Forall_forall. intros [key value] Hin p.
    apply (proj1 (Forall_forall _ _) IH (key, value) Hin).
    apply list_elem_of_In in Hin. by apply (proj1 (forallb_forall _ _) Hno (key, value)).
Qed.

(** X3: the extractor can only throw on a document in which some object has
    an own property called [toString]: on every other document it returns
    a result, at every path and for every config type. *)
Theorem extract_succeeds_without_toString {num} {HN : JsNumber num}
    (obj : jsvalue num) (configTypeName fieldPath : string) :
  noToStringKey obj = true →
  ∃ fieldsMap, extractFieldsFromJson obj configTypeName fieldPath = Some fieldsMap.
Proof. intros Hno. by apply extract_is_Some. Qed.

Lemma extract_succeeds_without_toString_witness :
  ∃ fieldsMap, extractFieldsFromJson Docs.nested "planets" "" = Some fieldsMap.
Proof. apply extract_succeeds_without_toString. reflexivity. Defined.

(** ** What a merge changes and what it keeps *)

Lemma extendsAnalysis_refl c : extendsAnalysis c c.
Proof. repeat split; [done |]. intros modName values Hget. by exists values. Qed.

Lemma extendsAnalysis_trans c1 c2 c3 :
  extendsAnalysis c1 c2 → extendsAnalysis c2 c3 → extendsAnalysis c1 c3.
Proof.
  intros (Hk12 & Hv12 & Hm12) (Hk23 & Hv23 & Hm23).
  repeat split; [congruence | set_solver |].
  intros modName values Hget.
  destruct (Hm12 _ _ Hget) as (values2 & Hget2 & Hsub2).
  destruct (Hm23 _ _ Hget2) as (values3 & Hget3 & Hsub3).
  exists values3. split; [done | set_solver].
Qed.

Lemma mergeFieldAnalysis_extends c a modName :
  extendsAnalysis c (mergeFieldAnalysis c a modName).
Proof.
  repeat split; [simpl; set_solver |].
  intros modName' values' Hget'.
  destruct (Map_get modName (modValues c)) as [values|] eqn:Hget.
  - rewrite (mergeFieldAnalysis_known _ _ _ _ Hget). simpl.
    destruct (decide (modName = modName')) as [<-|Hne].
    + rewrite Map_get_set_eq. eexists. split; [done |].
      rewrite Hget in Hget'. injection Hget' as <-. set_solver.
    + rewrite Map_get_set_ne by done. by exists values'.
  - rewrite (mergeFieldAnalysis_fresh _ _ _ Hget). simpl.
    destruct (decide (modName = modName')) as [<-|Hne]; [congruence |].
    rewrite !Map_get_set_ne by done. by exists values'.
Qed.

Lemma mergeField_extends modName m fieldPath' b fieldPath c :
  Map_get fieldPath m = Some c →
  ∃ c', Map_get fieldPath (mergeField modName m fieldPath' b) = Some c'
        ∧ extendsAnalysis c c'.
Proof.
  intros Hget. destruct (decide (fieldPath' = fieldPath)) as [->|Hne].
  - rewrite (mergeField_known _ _ _ _ _ Hget).
    eexists. split; [apply Map_get_set_eq | apply mergeFieldAnalysis_extends].
  - exists c. split; [| apply extendsAnalysis_refl].
    destruct (Map_get fieldPath' m) as [c'|] eqn:Hget'.
    + rewrite (mergeField_known _ _ _ _ _ Hget'). by rewrite Map_get_set_ne.
    + rewrite (mergeField_fresh _ _ _ _ Hget'). by rewrite !Map_get_set_ne.
Qed.

Lemma mergeModFields_extends modName modFields m fieldPath c :
  Map_get fieldPath m = Some c →
  ∃ c', Map_get fieldPath (mergeModFields modName modFields m) = Some c'
        ∧ extendsAnalysis c c'.
Proof.
  revert m c. induction modFields as [|[fieldPath' b] rest IH]; intros m c Hget; simpl.
  - exists c. split; [done | apply extendsAnalysis_refl].
  - destruct (mergeField_extends modName m fieldPath' b _ _ Hget) as (c1 & Hget1 & Hext1).
    destruct (IH _ _ Hget1) as (c2 & Hget2 & Hext2).
    exists c2. split; [done | by eapply extendsAnalysis_trans].
Qed.

Lemma analyzeDocument_extends {num} {HN : JsNumber num} configTypeName modName
    (configData : jsvalue num) m m' fieldPath c :
  analyzeDocument configTypeName modName configData m = Some m' →
  Map_get fieldPath m = Some c →
  ∃ c', Map_get fieldPath m' = Some c' ∧ extendsAnalysis c c'.
Proof.
  unfold analyzeDocument. destruct (falsy configData).
  - intros [= <-] Hget. exists c. split; [done | apply extendsAnalysis_refl].
  - destruct (extractFieldsFromJson _ _ _) as [modFields|]; simpl; [| done].
    intros [= <-]. apply mergeModFields_extends.
Qed.

Lemma singleConfigLoop_extends {num} {HN : JsNumber num} configTypeName
    (configStore : list (string * jsvalue num)) m m' fieldPath c :
  singleConfigLoop configTypeName configStore m = Some m' →
  Map_get fieldPath m = Some c →
  ∃ c', Map_get fieldPath m' = Some c' ∧ extendsAnalysis c c'.
Proof.
  revert m c. induction configStore as [|[modName configData] rest IH];
    intros m c; simpl.
  - intros [= <-] Hget. exists c. split; [done | apply extendsAnalysis_refl].
  - destruct (analyzeDocument _ _ _ _) as [m1|] eqn:Hdoc; simpl; [| done].
    intros Hrun Hget.
    destruct (analyzeDocument_extends _ _ _ _ _ _ _ Hdoc Hget) as (c1 & Hget1 & Hext1).
    destruct (IH _ _ Hrun Hget1) as (c2 & Hget2 & Hext2).
    exists c2. split; [done | by eapply extendsAnalysis_trans].
Qed.

Lemma configFilesLoop_extends {num} {HN : JsNumber num} configTypeName modName
    (configFiles : list (string * jsvalue num)) m m' fieldPath c :
  configFilesLoop configTypeName modName configFiles m = Some m' →
  Map_get fieldPath m = Some c →
  ∃ c', Map_get fieldPath m' = Some c' ∧ extendsAnalysis c c'.
Proof.
  revert m c. induction configFiles as [|[filePath configData] rest IH];
    intros m c; simpl.
  - intros [= <-] Hget. exists c. split; [done | apply extendsAnalysis_refl].
  - destruct (analyzeDocument _ _ _ _) as [m1|] eqn:Hdoc; simpl; [| done].
    intros Hrun Hget.
    destruct (analyzeDocument_extends _ _ _ _ _ _ _ Hdoc Hget) as (c1 & Hget1 & Hext1).
    destruct (IH _ _ Hrun Hget1) as (c2 & Hget2 & Hext2).
    exists c2. split; [done | by eapply extendsAnalysis_trans].
Qed.

(** X4: a merge never loses anything: a path that has an entry keeps one,
    with the same kind, at least the same distinct values, and for every mod
    recorded at least the same values. *)
Theorem merge_keeps_what_is_recorded (modName : string)
    (modFields fieldAnalysisMap : Map FieldAnalysis)
    (fieldPath : string) (c : FieldAnalysis) :
  Map_get fieldPath fieldAnalysisMap = Some c →
  ∃ c', Map_get fieldPath (mergeModFields modName modFields fieldAnalysisMap) = Some c'
        ∧ fieldType c' = fieldType c
        ∧ distinctValues c ⊆ distinctValues c'
        ∧ ∀ modName' values,
            Map_get modName' (modValues c) = Some values →
            ∃ values', Map_get modName' (modValues c') = Some values'
                       ∧ values ⊆ values'.
Proof. apply mergeModFields_extends. Qed.

Lemma merge_keeps_what_is_recorded_witness :
  ∃ c', Map_get "x"
          (mergeModFields "b.mod" [("x", newFieldAnalysis {[ "2" ]} array)]
             [("x", recordedOnce)]) = Some c'
        ∧ fieldType c' = fieldType recordedOnce
        ∧ distinctValues recordedOnce ⊆ distinctValues c'
        ∧ ∀ modName' values,
            Map_get modName' (modValues recordedOnce) = Some values →
            ∃ values', Map_get modName' (modValues c') = Some values'
                       ∧ values ⊆ values'.
Proof.
  exact (merge_keeps_what_is_recorded "b.mod"
           [("x", newFieldAnalysis {[ "2" ]} array)] [("x", recordedOnce)]
           "x" recordedOnce eq_refl).
Defined.

(** ** The exact effect of a merge *)

Lemma modValuesAt_mergeField modName m fieldPath' b modName' fieldPath :
  modValuesAt modName' fieldPath (mergeField modName m fieldPath' b) =
    if bool_decide (fieldPath' = fieldPath ∧ modName = modName')
    then Some (default ∅ (modValuesAt modName fieldPath m) ∪ distinctValues b)
    else modValuesAt modName' fieldPath m.
Proof.
  unfold modValuesAt.
  destruct (decide (fieldPath' = fieldPath)) as [->|Hpath].
  - destruct (Map_get fieldPath m) as [c|] eqn:Hget.
    + rewrite (mergeField_known _ _ _ _ _ Hget), Map_get_set_eq.
      cbn -[mergeFieldAnalysis].
      destruct (Map_get modName (modValues c)) as [values|] eqn:Hmod.
      * rewrite (mergeFieldAnalysis_known _ _ _ _ Hmod). simpl.
        case_bool_decide as Hd.
        -- destruct Hd as [_ <-]. by rewrite Map_get_set_eq.
        -- rewrite Map_get_set_ne; [done | naive_solver].
      * rewrite (mergeFieldAnalysis_fresh _ _ _ Hmod). simpl.
        case_bool_decide as Hd.
        -- destruct Hd as [_ <-]. by rewrite Map_get_set_eq.
        -- rewrite !Map_get_set_ne; [done | naive_solver | naive_solver].
    + rewrite (mergeField_fresh _ _ _ _ Hget), Map_get_set_eq.
      cbn -[mergeFieldAnalysis].
      rewrite mergeFieldAnalysis_fresh by done. simpl.
      case_bool_decide as Hd.
      * destruct Hd as [_ <-]. rewrite String.eqb_refl. simpl.
        by rewrite String.eqb_refl.
      * rewrite String.eqb_refl. simpl.
        destruct (String.eqb_spec modName modName'); [naive_solver | done].
  - rewrite bool_decide_eq_false_2 by naive_solver.
    destruct (Map_get fieldPath' m) as [c'|] eqn:Hget'.
    + rewrite (mergeField_known _ _ _ _ _ Hget'). by rewrite Map_get_set_ne.
    + rewrite (mergeField_fresh _ _ _ _ Hget'). by rewrite !Map_get_set_ne.
Qed.

Lemma distinctValuesAt_mergeField modName m fieldPath' b fieldPath :
  distinctValuesAt fieldPath (mergeField modName m fieldPath' b) =
    if bool_decide (fieldPath' = fieldPath)
    then Some (default ∅ (distinctValuesAt fieldPath m) ∪ distinctValues b)
    else distinctValuesAt fieldPath m.
Proof.
  unfold distinctValuesAt.
  case_bool_decide as Hpath.
  - subst. destruct (Map_get fieldPath m) as [c|] eqn:Hget.
    + by rewrite (mergeField_known _ _ _ _ _ Hget), Map_get_set_eq.
    + by rewrite (mergeField_fresh _ _ _ _ Hget), Map_get_set_eq.
  - destruct (Map_get fieldPath' m) as [c'|] eqn:Hget'.
    + rewrite (mergeField_known _ _ _ _ _ Hget'). by rewrite Map_get_set_ne.
    + rewrite (mergeField_fresh _ _ _ _ Hget'). by rewrite !Map_get_set_ne.
Qed.

Lemma extractedAt_cons fieldPath fieldPath' b rest :
  extractedAt fieldPath ((fieldPath', b) :: rest) =
    (if bool_decide (fieldPath' = fieldPath) then distinctValues b else ∅)
    ∪ extractedAt fieldPath rest.
Proof.
  unfold extractedAt. simpl.
  destruct (String.eqb_spec fieldPath' fieldPath) as [->|Hne].
  - rewrite bool_decide_eq_true_2 by done. reflexivity.
  - rewrite bool_decide_eq_false_2 by done. set_solver.
Qed.

Lemma extractedAt_absent fieldPath modFields :
  Map_has fieldPath modFields = false → extractedAt fieldPath modFields = ∅.
Proof.
  unfold Map_has. induction modFields as [|[fieldPath' b] rest IH]; simpl; [done |].
  rewrite extractedAt_cons.
  destruct (String.eqb_spec fieldPath' fieldPath) as [->|Hne]; [done |].
  intros Hrest. rewrite bool_decide_eq_false_2 by done. rewrite IH by done. set_solver.
Qed.

Lemma Map_has_cons {V} k k' (v : V) m :
  Map_has k ((k', v) :: m) = bool_decide (k' = k) || Map_has k m.
Proof.
  unfold Map_has. simpl. destruct (String.eqb_spec k' k) as [->|Hne].
  - by rewrite bool_decide_eq_true_2.
  - by rewrite bool_decide_eq_false_2.
Qed.

Lemma modValuesAt_mergeModFields_other modName modFields m modName' fieldPath :
  modName ≠ modName' →
  modValuesAt modName' fieldPath (mergeModFields modName modFields m) =
  modValuesAt modName' fieldPath m.
Proof.
  intros Hne. revert m. induction modFields as [|[fieldPath' b] rest IH]; intros m; simpl.
  - done.
  - rewrite IH, modValuesAt_mergeField. by rewrite bool_decide_eq_false_2 by naive_solver.
Qed.

Lemma modValuesAt_mergeModFields_same modName modFields m fieldPath :
  modValuesAt modName fieldPath (mergeModFields modName modFields m) =
    if Map_has fieldPath modFields
    then Some (default ∅ (modValuesAt modName fieldPath m)
               ∪ extractedAt fieldPath modFields)
    else modValuesAt modName fieldPath m.
Proof.
  revert m. induction modFields as [|[fieldPath' b] rest IH]; intros m; simpl.
  - done.
  - rewrite IH, modValuesAt_mergeField, Map_has_cons, extractedAt_cons.
    case_bool_decide as Hd.
    + destruct Hd as [-> _]. rewrite bool_decide_eq_true_2 by done. simpl.
      destruct (Map_has fieldPath rest) eqn:Hrest.
      * f_equal. set_solver.
      * rewrite extractedAt_absent by done. f_equal. set_solver.
    + rewrite bool_decide_eq_false_2 by naive_solver. simpl.
      destruct (Map_has fieldPath rest); [| done]. f_equal. set_solver.
Qed.

Lemma distinctValuesAt_mergeModFields modName modFields m fieldPath :
  distinctValuesAt fieldPath (mergeModFields modName modFields m) =
    if Map_has fieldPath modFields
    then Some (default ∅ (distinctValuesAt fieldPath m)
               ∪ extractedAt fieldPath modFields)
    else distinctValuesAt fieldPath m.
Proof.
  revert m. induction modFields as [|[fieldPath' b] rest IH]; intros m; simpl.
  - done.
  - rewrite IH, distinctValuesAt_mergeField, Map_has_cons, extractedAt_cons.
    case_bool_decide as Hd; simpl.
    + subst. destruct (Map_has fieldPath rest) eqn:Hrest.
      * f_equal. set_solver.
      * rewrite extractedAt_absent by done. f_equal. set_solver.
    + destruct (Map_has fieldPath rest); [| done]. f_equal. set_solver.
Qed.

(** X5: merging the fields of a document for one mod leaves what is
    recorded for every other mod untouched, at every path. *)
Theorem merge_leaves_other_mods_untouched (modName modName' : string)
    (modFields fieldAnalysisMap : Map FieldAnalysis) (fieldPath : string) :
  modName ≠ modName' →
  modValuesAt modName' fieldPath (mergeModFields modName modFields fieldAnalysisMap) =
  modValuesAt modName' fieldPath fieldAnalysisMap.
Proof. apply modValuesAt_mergeModFields_other. Qed.

Lemma merge_leaves_other_mods_untouched_witness :
  modValuesAt "a.mod" "x"
    (mergeModFields "b.mod" [("x", newFieldAnalysis {[ "2" ]} array)]
       [("x", recordedOnce)]) =
  modValuesAt "a.mod" "x" [("x", recordedOnce)].
Proof.
  apply (merge_leaves_other_mods_untouched "b.mod" "a.mod"). discriminate.
Defined.

(** X6: a merge adds exactly the extracted values. At a path the document
    has, the values of the merged mod and the distinct values of the field
    become what they were (nothing, for a new mod or path) together with the
    values extracted for that path; at any other path both stay as they
    were. *)
Theorem merge_adds_exactly_the_extracted_values (modName : string)
    (modFields fieldAnalysisMap : Map FieldAnalysis) (fieldPath : string) :
  modValuesAt modName fieldPath (mergeModFields modName modFields fieldAnalysisMap) =
    (if Map_has fieldPath modFields
     then Some (default ∅ (modValuesAt modName fieldPath fieldAnalysisMap)
                ∪ extractedAt fieldPath modFields)
     else modValuesAt modName fieldPath fieldAnalysisMap)
  ∧ distinctValuesAt fieldPath (mergeModFields modName modFields fieldAnalysisMap) =
    (if Map_has fieldPath modFields
     then Some (default ∅ (distinctValuesAt fieldPath fieldAnalysisMap)
                ∪ extractedAt fieldPath modFields)
     else distinctValuesAt fieldPath fieldAnalysisMap).
Proof.
  split; [apply modValuesAt_mergeModFields_same | apply distinctValuesAt_mergeModFields].
Qed.

(** ** The shape of an aggregate *)

Lemma Map_set_not_nil {V} k (v : V) m : Map_set k v m ≠ [].
Proof. destruct m as [|[k' v'] m]; simpl; [done |]. by destruct (String.eqb k' k). Qed.

Lemma mergeFieldAnalysis_aggregated c a modName :
  NoDup (Map_keys (modValues c)) →
  aggregatedAnalysis (mergeFieldAnalysis c a modName).
Proof.
  intros Hnd. destruct (Map_get modName (modValues c)) as [values|] eqn:Hget.
  - rewrite (mergeFieldAnalysis_known _ _ _ _ Hget).
    split; simpl; [by apply Map_set_NoDup | apply Map_set_not_nil].
  - rewrite (mergeFieldAnalysis_fresh _ _ _ Hget).
    split; simpl; [by do 2 apply Map_set_NoDup | apply Map_set_not_nil].
Qed.

Lemma mergeField_aggregated modName m fieldPath a :
  aggregatedMap m → aggregatedMap (mergeField modName m fieldPath a).
Proof.
  intros [Hnd Hall]. destruct (Map_get fieldPath m) as [c|] eqn:Hget.
  - rewrite (mergeField_known _ _ _ _ _ Hget).
    split; [by apply Map_set_NoDup |].
    apply Forall_Map_set; [| done]. simpl.
    apply mergeFieldAnalysis_aggregated.
    apply Map_get_elem_of in Hget.
    by destruct (proj1 (Forall_forall _ _) Hall (fieldPath, c) Hget).
  - rewrite (mergeField_fresh _ _ _ _ Hget), Map_set_set.
    split; [by apply Map_set_NoDup |].
    apply Forall_Map_set; [| done]. simpl.
    apply mergeFieldAnalysis_aggregated. simpl. apply NoDup_nil_2.
Qed.

Lemma reachable_aggregated m : reachable m → aggregatedMap m.
Proof.
  induction 1 as [|modName m fieldPath a _ IH].
  - split; [apply NoDup_nil_2 | constructor].
  - by apply mergeField_aggregated.
Qed.

(** X7: in every aggregate the drivers can reach, the paths are pairwise
    distinct, and every path has at least one mod recorded, the mods of a
    path being pairwise distinct. *)
Theorem reachable_aggregate_shape (fieldAnalysisMap : Map FieldAnalysis) :
  reachable fieldAnalysisMap →
  NoDup (Map_keys fieldAnalysisMap)
  ∧ ∀ fieldPath analysis, (fieldPath, analysis) ∈ fieldAnalysisMap →
      NoDup (Map_keys (modValues analysis)) ∧ modValues analysis ≠ [].
Proof.
  intros [Hnd Hall]%reachable_aggregated. split; [done |].
  intros fieldPath analysis Hin.
  apply (proj1 (Forall_forall _ _) Hall (fieldPath, analysis) Hin).
Qed.

Lemma reachable_aggregate_shape_witness :
  NoDup (Map_keys (mergeField "a.mod" [] "x" (newFieldAnalysis {[ "1" ]} primitive)))
  ∧ ∀ fieldPath analysis,
      (fieldPath, analysis)
        ∈ mergeField "a.mod" [] "x" (newFieldAnalysis {[ "1" ]} primitive) →
      NoDup (Map_keys (modValues analysis)) ∧ modValues analysis ≠ [].
Proof.
  apply reachable_aggregate_shape. constructor. constructor.
Defined.

(** ** The two drivers *)

Lemma singleConfigLoop_app {num} {HN : JsNumber num} configTypeName
    (store1 store2 : list (string * jsvalue num)) m :
  singleConfigLoop configTypeName (store1 ++ store2)%list m =
    (m1 ← singleConfigLoop configTypeName store1 m;
     singleConfigLoop configTypeName store2 m1).
Proof.
  revert m. induction store1 as [|[modName configData] rest IH]; intros m; simpl.
  - done.
  - destruct (analyzeDocument _ _ _ _) as [m1|]; simpl; [apply IH | done].
Qed.

Lemma configFilesLoop_as_single {num} {HN : JsNumber num} configTypeName modName
    (configFiles : list (string * jsvalue num)) m :
  configFilesLoop configTypeName modName configFiles m =
  singleConfigLoop configTypeName
    ((λ file : string * jsvalue num, (modName, file.2)) <$> configFiles) m.
Proof.
  revert m. induction configFiles as [|[filePath configData] rest IH]; intros m; csimpl.
  - done.
  - destruct (analyzeDocument _ _ _ _) as [m1|]; simpl; [apply IH | done].
Qed.

(** X8: the driver of the multi-document config types is the driver of the
    single-document ones run on the store with one entry per file, each
    file standing under the name of its mod, in the order of the mods and of
    their files. *)
Theorem multi_driver_is_single_driver_on_files {num} {HN : JsNumber num}
    (configTypeName : string)
    (configStore : list (string * list (string * jsvalue num)))
    (fieldAnalysisMap : Map FieldAnalysis) :
  multiConfigLoop configTypeName configStore fieldAnalysisMap =
  singleConfigLoop configTypeName (flattenStore configStore) fieldAnalysisMap.
Proof.
  unfold flattenStore. revert fieldAnalysisMap.
  induction configStore as [|[modName configFiles] rest IH]; intros m; csimpl.
  - done.
  - rewrite singleConfigLoop_app, <- configFilesLoop_as_single.
    destruct (configFilesLoop _ _ _ _) as [m1|]; simpl; [apply IH | done].
Qed.

(** X9: the entries of a store whose document is falsy (null, undefined,
    false, a falsy number, the empty string) play no part: the driver gives
    the same result on the store without them. *)
Theorem falsy_documents_are_skipped {num} {HN : JsNumber num}
    (configTypeName : string) (configStore : list (string * jsvalue num))
    (fieldAnalysisMap : Map FieldAnalysis) :
  singleConfigLoop configTypeName configStore fieldAnalysisMap =
  singleConfigLoop configTypeName
    (filter (λ entry, falsy entry.2 = false) configStore) fieldAnalysisMap.
Proof.
  revert fieldAnalysisMap.
  induction configStore as [|[modName configData] rest IH]; intros m; [done |].
  rewrite filter_cons. simpl.
  destruct (falsy configData) eqn:Hfalsy.
  - rewrite decide_False by done. rewrite analyzeDocument_falsy by done. apply IH.
  - rewrite decide_True by done. simpl.
    destruct (analyzeDocument _ _ _ _) as [m1|]; simpl; [apply IH | done].
Qed.

(** ** When the per-mod summary throws *)

Lemma pushModInfo_None modName info perMod :
  Forall (λ entry, inherited entry.1 = false) perMod →
  pushModInfo modName info perMod = None ↔ inherited modName = true.
Proof.
  intros Hall. unfold pushModInfo.
  destruct (Map_get modName perMod) as [infos|] eqn:Hget.
  - apply Map_get_elem_of in Hget.
    pose proof (proj1 (Forall_forall _ _) Hall (modName, infos) Hget) as Hno.
    simpl in Hno. rewrite Hno. done.
  - destruct (inherited modName); done.
Qed.

Lemma pushModInfo_keys_not_inherited modName info perMod perMod' :
  Forall (λ entry, inherited entry.1 = false) perMod →
  pushModInfo modName info perMod = Some perMod' →
  Forall (λ entry, inherited entry.1 = false) perMod'.
Proof.
  intros Hall. unfold pushModInfo.
  destruct (Map_get modName perMod) as [infos|] eqn:Hget.
  - intros [= <-]. apply Forall_Map_set; [| done]. simpl.
    apply Map_get_elem_of in Hget.
    apply (proj1 (Forall_forall _ _) Hall (modName, infos) Hget).
  - destruct (inherited modName) eqn:Hinh; [done |].
    intros [= <-]. by apply Forall_Map_set.
Qed.

Lemma pushFieldMods_None fieldPath kind mods perMod :
  Forall (λ entry, inherited entry.1 = false) perMod →
  pushFieldMods fieldPath kind mods perMod = None
  ↔ ∃ modName values, (modName, values) ∈ mods ∧ inherited modName = true.
Proof.
  revert perMod. induction mods as [|[modName values] rest IH]; intros perMod Hall; simpl.
  - split; [done |]. intros (? & ? & Hin & _). by apply elem_of_nil in Hin.
  - destruct (pushModInfo _ _ _) as [perMod1|] eqn:Hpush; simpl.
    + rewrite IH by (by eapply pushModInfo_keys_not_inherited).
      assert (inherited modName = false) as Hno.
      { destruct (inherited modName) eqn:Hinh; [| done].
        pose proof (proj2 (pushModInfo_None modName
                      (PerModFieldInfo.mk fieldPath kind (sortedValues values))
                      perMod Hall) Hinh).
        congruence. }
      split.
      * intros (modName' & values' & Hin & Hinh).
        exists modName', values'. split; [by apply list_elem_of_further | done].
      * intros (modName' & values' & [[= -> ->]|Hin]%elem_of_cons & Hinh);
          [congruence |]. by exists modName', values'.
    + split; [| done]. intros _.
      exists modName, values. split; [apply list_elem_of_here |].
      by apply (pushModInfo_None _ _ _ Hall) in Hpush.
Qed.

Lemma pushFieldMods_keys_not_inherited fieldPath kind mods perMod perMod' :
  Forall (λ entry, inherited entry.1 = false) perMod →
  pushFieldMods fieldPath kind mods perMod = Some perMod' →
  Forall (λ entry, inherited entry.1 = false) perMod'.
Proof.
  revert perMod. induction mods as [|[modName values] rest IH]; intros perMod Hall; simpl.
  - by intros [= <-].
  - destruct (pushModInfo _ _ _) as [perMod1|] eqn:Hpush; simpl; [| done].
    apply IH. by eapply pushModInfo_keys_not_inherited.
Qed.

Lemma pushFields_None m perMod :
  Forall (λ entry, inherited entry.1 = false) perMod →
  pushFields m perMod = None ↔ hasInheritedModName m.
Proof.
  unfold hasInheritedModName.
  revert perMod. induction m as [|[fieldPath analysis] rest IH]; intros perMod Hall; simpl.
  - split; [done |]. intros (? & ? & ? & ? & Hin & _). by apply elem_of_nil in Hin.
  - destruct (pushFieldMods _ _ _ _) as [perMod1|] eqn:Hpush; simpl.
    + rewrite IH by (by eapply pushFieldMods_keys_not_inherited).
      split.
      * intros (fieldPath' & analysis' & modName & values & Hin & Hmod & Hinh).
        exists fieldPath', analysis', modName, values.
        split; [by apply list_elem_of_further | done].
      * intros (fieldPath' & analysis' & modName & values
                & [[= -> ->]|Hin]%elem_of_cons & Hmod & Hinh).
        -- assert (pushFieldMods fieldPath (fieldType analysis) (modValues analysis) perMod
                   = None) as Hnone
             by (apply pushFieldMods_None; [done | by exists modName, values]).
           congruence.
        -- by exists fieldPath', analysis', modName, values.
    + split; [| done]. intros _.
      apply pushFieldMods_None in Hpush as (modName & values & Hmod & Hinh); [| done].
      exists fieldPath, analysis, modName, values.
      split; [apply list_elem_of_here | done].
Qed.

(** X10: building the per-mod summary throws exactly when some mod recorded
    in the aggregate bears a name that the summary object inherits from
    [Object.prototype] (["constructor"], ["toString"], ["__proto__"], ...),
    and that is the only way writing the summaries of a config type throws. *)
Theorem perMod_summary_throws_on_inherited_names
    (localeCompare : string → string → Z) (fieldAnalysisMap : Map FieldAnalysis) :
  (buildPerModSummaries localeCompare fieldAnalysisMap = None
   ↔ hasInheritedModName fieldAnalysisMap)
  ∧ (writeAnalysisSummaries localeCompare fieldAnalysisMap = None
     ↔ hasInheritedModName fieldAnalysisMap).
Proof.
  assert (buildPerModSummaries localeCompare fieldAnalysisMap = None
          ↔ hasInheritedModName fieldAnalysisMap) as Hbuild.
  { rewrite <- (pushFields_None fieldAnalysisMap []) by constructor.
    unfold buildPerModSummaries. destruct (pushFields fieldAnalysisMap []); done. }
  split; [done |]. rewrite <- Hbuild. unfold writeAnalysisSummaries.
  destruct (buildPerModSummaries localeCompare fieldAnalysisMap); done.
Qed.

(** ** What the two summaries hold *)

Lemma elem_of_Map_set_NoDup {V} k (v : V) m k' v' :
  NoDup (Map_keys m) →
  (k', v') ∈ Map_set k v m ↔ (k' = k ∧ v' = v) ∨ (k' ≠ k ∧ (k', v') ∈ m).
Proof.
  unfold Map_keys. induction m as [|[k0 v0] m IH]; csimpl; intros Hnd.
  - rewrite list_elem_of_singleton. split; [intros [= -> ->]; by left |].
    intros [[-> ->]|[_ Hin]]; [done | by apply elem_of_nil in Hin].
  - apply NoDup_cons in Hnd as [Hk0 Hnd].
    destruct (String.eqb_spec k0 k) as [->|Hne].
    + rewrite !elem_of_cons. split.
      * intros [[= -> ->]|Hin]; [by left |]. right.
        split; [| by right]. intros ->. apply Hk0.
        apply list_elem_of_fmap. by exists (k, v').
      * intros [[-> ->]|[Hk [[= -> ->]|Hin]]]; [by left | done | by right].
    + rewrite !elem_of_cons, IH by done. naive_solver.
Qed.

Lemma buildPerFieldLoop_absent localeCompare m perField fieldPath :
  fieldPath ∉ Map_keys m →
  Map_get fieldPath (buildPerFieldLoop localeCompare m perField) =
  Map_get fieldPath perField.
Proof.
  unfold Map_keys. revert perField.
  induction m as [|[fieldPath' a] rest IH]; intros perField; csimpl; [done |].
  intros [Hne Hrest]%not_elem_of_cons.
  rewrite IH by done. unfold assignField.
  destruct (String.eqb fieldPath' "__proto__"); [done |].
  by rewrite Map_get_set_ne.
Qed.

Lemma buildPerFieldLoop_present localeCompare m perField fieldPath a :
  NoDup (Map_keys m) →
  fieldPath ≠ "__proto__" →
  Map_get fieldPath m = Some a →
  Map_get fieldPath (buildPerFieldLoop localeCompare m perField) =
  Some (fieldSummaryOf localeCompare a).
Proof.
  unfold Map_keys. revert perField.
  induction m as [|[fieldPath' b] rest IH]; intros perField; csimpl; [done |].
  intros [Hhead Hnd]%NoDup_cons Hproto.
  destruct (String.eqb_spec fieldPath' fieldPath) as [->|Hne].
  - intros [= ->]. rewrite buildPerFieldLoop_absent by done.
    unfold assignField.
    destruct (String.eqb_spec fieldPath "__proto__"); [done |].
    apply Map_get_set_eq.
  - by apply IH.
Qed.

Lemma Map_keys_cons {V} k (v : V) m : Map_keys ((k, v) :: m) = k :: Map_keys m.
Proof. reflexivity. Qed.

Lemma buildPerFieldLoop_keys localeCompare m perField :
  NoDup (Map_keys perField ++ Map_keys m) →
  Map_keys (buildPerFieldLoop localeCompare m perField) =
  (Map_keys perField ++ filter (λ fieldPath, fieldPath ≠ "__proto__") (Map_keys m))%list.
Proof.
  revert perField. induction m as [|[fieldPath a] rest IH]; intros perField;
    cbn [buildPerFieldLoop].
  - intros _. change (Map_keys (@nil (string * FieldAnalysis))) with (@nil string).
    by rewrite filter_nil, app_nil_r.
  - rewrite Map_keys_cons. intros Hnd.
    rewrite filter_cons. unfold assignField.
    destruct (String.eqb_spec fieldPath "__proto__") as [->|Hne].
    + rewrite decide_False by naive_solver. apply IH.
      apply NoDup_app in Hnd as (Hnd1 & Hdisj & Hnd2).
      apply NoDup_cons in Hnd2 as [_ Hnd2].
      apply NoDup_app. split; [done |]. split; [| done].
      intros k Hk Hin. apply (Hdisj k Hk). by right.
    + rewrite decide_True by done.
      assert (Map_has fieldPath perField = false) as Hfresh.
      { apply NoDup_app in Hnd as (_ & Hdisj & _).
        unfold Map_has. destruct (Map_get fieldPath perField) eqn:Hget; [| done].
        exfalso. apply (Hdisj fieldPath); [| by left].
        apply Map_get_elem_of in Hget. apply list_elem_of_fmap.
        by eexists (fieldPath, _). }
      rewrite IH; rewrite Map_keys_set, Hfresh.
      * by rewrite <- app_assoc.
      * rewrite <- app_assoc. exact Hnd.
Qed.

(** X11: for an aggregate with distinct paths, the per-field summary has
    exactly one row for every path of the aggregate but ["__proto__"], and
    no other row; the row of a path is made of the kind, the mods and the
    values of that path. (Nothing is said of the order in which the rows are
    enumerated.) *)
Theorem perField_summary_rows (localeCompare : string → string → Z)
    (fieldAnalysisMap : Map FieldAnalysis) :
  NoDup (Map_keys fieldAnalysisMap) →
  NoDup (Map_keys (buildPerFieldSummaries localeCompare fieldAnalysisMap))
  ∧ (∀ fieldPath,
       fieldPath ∈ Map_keys (buildPerFieldSummaries localeCompare fieldAnalysisMap)
       ↔ fieldPath ∈ Map_keys fieldAnalysisMap ∧ fieldPath ≠ "__proto__")
  ∧ ∀ fieldPath analysis,
      fieldPath ≠ "__proto__" →
      Map_get fieldPath fieldAnalysisMap = Some analysis →
      Map_get fieldPath (buildPerFieldSummaries localeCompare fieldAnalysisMap) =
        Some (fieldSummaryOf localeCompare analysis).
Proof.
  intros Hnd.
  assert (Map_keys (buildPerFieldSummaries localeCompare fieldAnalysisMap) =
            filter (λ fieldPath, fieldPath ≠ "__proto__") (Map_keys fieldAnalysisMap))
    as Hkeys by (unfold buildPerFieldSummaries; by rewrite buildPerFieldLoop_keys).
  rewrite Hkeys. split; [by apply NoDup_filter |]. split.
  - intros fieldPath. rewrite list_elem_of_filter. naive_solver.
  - intros fieldPath analysis Hproto Hget.
    by apply buildPerFieldLoop_present.
Qed.

Lemma perField_summary_rows_witness :
  NoDup (Map_keys (buildPerFieldSummaries codeUnitCompare
                     [("__proto__", recordedOnce); ("x", recordedOnce)]))
  ∧ (∀ fieldPath,
       fieldPath ∈ Map_keys (buildPerFieldSummaries codeUnitCompare
                               [("__proto__", recordedOnce); ("x", recordedOnce)])
       ↔ fieldPath ∈ Map_keys [("__proto__", recordedOnce); ("x", recordedOnce)]
         ∧ fieldPath ≠ "__proto__")
  ∧ ∀ fieldPath analysis,
      fieldPath ≠ "__proto__" →
      Map_get fieldPath [("__proto__", recordedOnce); ("x", recordedOnce)] = Some analysis →
      Map_get fieldPath (buildPerFieldSummaries codeUnitCompare
                           [("__proto__", recordedOnce); ("x", recordedOnce)]) =
        Some (fieldSummaryOf codeUnitCompare analysis).
Proof.
  apply perField_summary_rows.
  unfold Map_keys. simpl. apply NoDup_cons. split.
  - intros [=]%list_elem_of_singleton.
  - apply NoDup_singleton.
Defined.

Lemma hasRow_pushModInfo modName info perMod perMod' modName' info' :
  NoDup (Map_keys perMod) →
  pushModInfo modName info perMod = Some perMod' →
  hasRow modName' info' perMod'
  ↔ hasRow modName' info' perMod ∨ (modName' = modName ∧ info' = info).
Proof.
  intros Hnd. unfold pushModInfo, hasRow.
  destruct (Map_get modName perMod) as [infos|] eqn:Hget.
  - intros [= <-]. split.
    + intros (rows & Hin & Hrow).
      apply elem_of_Map_set_NoDup in Hin as [[-> ->]|[Hne Hin]]; [| | done].
      * apply elem_of_app in Hrow as [Hrow| ->%list_elem_of_singleton]; [| by right].
        left. exists infos. split; [by apply Map_get_elem_of | done].
      * left. by exists rows.
    + intros [(rows & Hin & Hrow)|[-> ->]].
      * destruct (decide (modName' = modName)) as [->|Hne].
        -- apply (Map_get_Some_elem _ _ Hnd) in Hin.
           rewrite Hget in Hin. injection Hin as <-.
           exists (infos ++ [info])%list. split.
           ++ apply elem_of_Map_set_NoDup; [done | by left].
           ++ apply elem_of_app. by left.
        -- exists rows. split; [| done].
           apply elem_of_Map_set_NoDup; [done | by right].
      * exists (infos ++ [info])%list. split.
        -- apply elem_of_Map_set_NoDup; [done | by left].
        -- apply elem_of_app. right. apply list_elem_of_here.
  - destruct (inherited modName); [done |]. intros [= <-]. split.
    + intros (rows & Hin & Hrow).
      apply elem_of_Map_set_NoDup in Hin as [[-> ->]|[Hne Hin]]; [| | done].
      * apply list_elem_of_singleton in Hrow as ->. by right.
      * left. by exists rows.
    + intros [(rows & Hin & Hrow)|[-> ->]].
      * exists rows. split; [| done].
        apply elem_of_Map_set_NoDup; [done |]. right. split; [| done].
        intros ->. apply (Map_get_Some_elem _ _ Hnd) in Hin. congruence.
      * exists [info]. split; [| apply list_elem_of_here].
        apply elem_of_Map_set_NoDup; [done | by left].
Qed.

Lemma pushModInfo_NoDup modName info perMod perMod' :
  NoDup (Map_keys perMod) →
  pushModInfo modName info perMod = Some perMod' →
  NoDup (Map_keys perMod').
Proof.
  intros Hnd. unfold pushModInfo.
  destruct (Map_get modName perMod); [| destruct (inherited modName); [done |]];
    intros [= <-]; by apply Map_set_NoDup.
Qed.

Lemma hasRow_pushFieldMods fieldPath kind mods perMod perMod' modName' info' :
  NoDup (Map_keys perMod) →
  pushFieldMods fieldPath kind mods perMod = Some perMod' →
  NoDup (Map_keys perMod')
  ∧ (hasRow modName' info' perMod'
     ↔ hasRow modName' info' perMod
       ∨ ∃ values, (modName', values) ∈ mods
                   ∧ info' = PerModFieldInfo.mk fieldPath kind (sortedValues values)).
Proof.
  revert perMod. induction mods as [|[modName values] rest IH]; intros perMod Hnd; simpl.
  - intros [= <-]. split; [done |]. split; [by left |].
    intros [?|(? & Hin & _)]; [done | by apply elem_of_nil in Hin].
  - destruct (pushModInfo _ _ _) as [perMod1|] eqn:Hpush; simpl; [| done].
    intros Hrest.
    pose proof (pushModInfo_NoDup _ _ _ _ Hnd Hpush) as Hnd1.
    destruct (IH _ Hnd1 Hrest) as [Hnd' Hrows]. split; [done |].
    rewrite Hrows, (hasRow_pushModInfo _ _ _ _ _ _ Hnd Hpush).
    split.
    + intros [[?|[-> ->]]|(values' & Hin & ->)].
      * by left.
      * right. exists values. split; [apply list_elem_of_here | done].
      * right. exists values'. split; [by apply list_elem_of_further | done].
    + intros [?|(values' & [[= -> ->]|Hin]%elem_of_cons & ->)].
      * by left; left.
      * left. by right.
      * right. by exists values'.
Qed.

Lemma hasRow_pushFields m perMod perMod' modName' info' :
  NoDup (Map_keys perMod) →
  pushFields m perMod = Some perMod' →
  NoDup (Map_keys perMod')
  ∧ (hasRow modName' info' perMod'
     ↔ hasRow modName' info' perMod ∨ recordsRow m modName' info').
Proof.
  unfold recordsRow.
  revert perMod. induction m as [|[fieldPath analysis] rest IH]; intros perMod Hnd; simpl.
  - intros [= <-]. split; [done |]. split; [by left |].
    intros [?|(? & ? & Hin & _)]; [done | by apply elem_of_nil in Hin].
  - destruct (pushFieldMods _ _ _ _) as [perMod1|] eqn:Hpush; simpl; [| done].
    intros Hrest.
    destruct (hasRow_pushFieldMods _ _ _ _ _ modName' info' Hnd Hpush) as [Hnd1 Hrows1].
    destruct (IH _ Hnd1 Hrest) as [Hnd' Hrows]. split; [done |].
    rewrite Hrows, Hrows1. split.
    + intros [[?|(values & Hin & ->)]|(analysis' & values & Hin & Hmod & Hkind & Hvalues)].
      * by left.
      * right. exists analysis, values. simpl.
        split; [apply list_elem_of_here | done].
      * right. exists analysis', values.
        split; [by apply list_elem_of_further | done].
    + intros [?|(analysis' & values & [Heq|Hin]%elem_of_cons & Hmod & Hkind & Hvalues)].
      * by left; left.
      * injection Heq as Hpath <-. left. right. exists values. split; [done |].
        destruct info' as [p k v]. simpl in *. by subst.
      * right. by exists analysis', values.
Qed.

Lemma hasRow_sorted (le : PerModFieldInfo.t → PerModFieldInfo.t → bool)
    (perMod : Map (list PerModFieldInfo.t)) modName info :
  hasRow modName info
    (List.map (λ entry : string * list PerModFieldInfo.t,
                 (entry.1, Array_sort le entry.2)) perMod)
  ↔ hasRow modName info perMod.
Proof.
  unfold hasRow. split.
  - intros (rows & Hin & Hrow).
    apply list_elem_of_In, in_map_iff in Hin as ([modName0 rows0] & [= -> <-] & Hin0).
    exists rows0. split; [by apply list_elem_of_In |].
    by rewrite Array_sort_Permutation in Hrow.
  - intros (rows & Hin & Hrow).
    exists (Array_sort le rows). split.
    + apply list_elem_of_In, in_map_iff. exists (modName, rows).
      split; [done | by apply list_elem_of_In].
    + by rewrite Array_sort_Permutation.
Qed.

(** X12: the per-mod summary is the aggregate seen from the mods: a mod has
    a row with a path, a kind and a list of values exactly when the
    aggregate records that mod at that path, with that kind and with those
    values once sorted. *)
Theorem perMod_summary_rows (localeCompare : string → string → Z)
    (fieldAnalysisMap : Map FieldAnalysis)
    (perModSummaries : Map (list PerModFieldInfo.t))
    (modName : string) (info : PerModFieldInfo.t) :
  buildPerModSummaries localeCompare fieldAnalysisMap = Some perModSummaries →
  hasRow modName info perModSummaries ↔ recordsRow fieldAnalysisMap modName info.
Proof.
  unfold buildPerModSummaries.
  destruct (pushFields fieldAnalysisMap []) as [perMod0|] eqn:Hpush; simpl; [| done].
  intros [= <-]. rewrite hasRow_sorted.
  assert (NoDup (Map_keys (@nil (string * list PerModFieldInfo.t)))) as Hnil
    by apply NoDup_nil_2.
  destruct (hasRow_pushFields _ _ _ modName info Hnil Hpush) as [_ ->].
  split; [| by right]. intros [(rows & Hin & _)|?]; [| done].
  by apply elem_of_nil in Hin.
Qed.

Lemma perMod_summary_rows_witness :
  hasRow "a.mod" (PerModFieldInfo.mk "x" primitive ["1"])
    [("a.mod", [PerModFieldInfo.mk "x" primitive ["1"]])]
  ↔ recordsRow [("x", recordedOnce)] "a.mod" (PerModFieldInfo.mk "x" primitive ["1"]).
Proof.
  apply (perMod_summary_rows codeUnitCompare [("x", recordedOnce)]).
  vm_compute. reflexivity.
Defined.

(** * Strings, paths and the report *)

(** ** [escapeHtml] *)

Lemma hasChar_app c a b : hasChar c (a ++ b) = hasChar c a || hasChar c b.
Proof.
  induction a as [|c' a IH]; simpl; [done |]. by rewrite IH, orb_assoc.
Qed.

(** The characters [escapeHtml] replaces. *)
Lemma escapeChar_cases c :
  (c = "&"%char ∧ escapeChar c = "&amp;")
  ∨ (c = "<"%char ∧ escapeChar c = "&lt;")
  ∨ (c = ">"%char ∧ escapeChar c = "&gt;")
  ∨ (c = "034"%char ∧ escapeChar c = "&quot;")
  ∨ (c = "'"%char ∧ escapeChar c = "&#039;")
  ∨ (c ≠ "&"%char ∧ c ≠ "<"%char ∧ c ≠ ">"%char ∧ c ≠ "034"%char ∧ c ≠ "'"%char
     ∧ escapeChar c = String c "").
Proof.
  unfold escapeChar.
  destruct (Ascii.eqb_spec c "&"); [subst; by left |].
  destruct (Ascii.eqb_spec c "<"); [subst; right; by left |].
  destruct (Ascii.eqb_spec c ">"); [subst; do 2 right; by left |].
  destruct (Ascii.eqb_spec c "034"); [subst; do 3 right; by left |].
  destruct (Ascii.eqb_spec c "'"); [subst; do 4 right; by left |].
  do 5 right. done.
Qed.

Lemma hasChar_singleton c c' : hasChar c (String c' "") = Ascii.eqb c' c.
Proof. simpl. by rewrite orb_false_r. Qed.

Lemma escapeChar_clean c :
  hasChar "<" (escapeChar c) = false
  ∧ hasChar ">" (escapeChar c) = false
  ∧ hasChar "034" (escapeChar c) = false
  ∧ hasChar "'" (escapeChar c) = false.
Proof.
  destruct (escapeChar_cases c)
    as [[-> ->]|[[-> ->]|[[-> ->]|[[-> ->]|[[-> ->]|(H1 & H2 & H3 & H4 & H5 & ->)]]]]];
    try (repeat split; reflexivity).
  rewrite !hasChar_singleton.
  repeat split; by apply Ascii.eqb_neq.
Qed.

(** X13: the escaped text holds none of the characters [<], [>], the double
    quote and the apostrophe, whatever the text; and a text that holds none
    of the five special characters is returned as it is. *)
Theorem escapeHtml_removes_markup (text : string) :
  (hasChar "<" (escapeHtml text) = false
   ∧ hasChar ">" (escapeHtml text) = false
   ∧ hasChar "034" (escapeHtml text) = false
   ∧ hasChar "'" (escapeHtml text) = false)
  ∧ (hasChar "&" text = false → hasChar "<" text = false → hasChar ">" text = false →
     hasChar "034" text = false → hasChar "'" text = false →
     escapeHtml text = text).
Proof.
  split.
  - induction text as [|c rest (IH1 & IH2 & IH3 & IH4)]; simpl; [done |].
    rewrite !hasChar_app, IH1, IH2, IH3, IH4.
    destruct (escapeChar_clean c) as (-> & -> & -> & ->). done.
  - induction text as [|c rest IH]; simpl; [done |].
    intros [Hc1 H1]%orb_false_iff [Hc2 H2]%orb_false_iff [Hc3 H3]%orb_false_iff
           [Hc4 H4]%orb_false_iff [Hc5 H5]%orb_false_iff.
    rewrite IH by done. unfold escapeChar.
    by rewrite Hc1, Hc2, Hc3, Hc4, Hc5.
Qed.

Lemma escapeHtml_removes_markup_witness :
  (hasChar "<" (escapeHtml "a.b") = false
   ∧ hasChar ">" (escapeHtml "a.b") = false
   ∧ hasChar "034" (escapeHtml "a.b") = false
   ∧ hasChar "'" (escapeHtml "a.b") = false)
  ∧ escapeHtml "a.b" = "a.b".
Proof.
  destruct (escapeHtml_removes_markup "a.b") as [Hclean Hsame].
  split; [exact Hclean | by apply Hsame].
Defined.

Lemma escapeHtml_cons c rest : escapeHtml (String c rest) = escapeChar c ++ escapeHtml rest.
Proof. reflexivity. Qed.

(** X14: escaping loses nothing: two texts with the same escaped form are
    the same text. *)
Theorem escapeHtml_injective (text1 text2 : string) :
  escapeHtml text1 = escapeHtml text2 → text1 = text2.
Proof.
  revert text2. induction text1 as [|c1 rest1 IH]; intros [|c2 rest2].
  - done.
  - rewrite escapeHtml_cons.
    destruct (escapeChar_cases c2)
      as [[-> ->]|[[-> ->]|[[-> ->]|[[-> ->]|[[-> ->]|(_ & _ & _ & _ & _ & ->)]]]]];
      discriminate.
  - rewrite escapeHtml_cons.
    destruct (escapeChar_cases c1)
      as [[-> ->]|[[-> ->]|[[-> ->]|[[-> ->]|[[-> ->]|(_ & _ & _ & _ & _ & ->)]]]]];
      discriminate.
  - rewrite !escapeHtml_cons.
    destruct (escapeChar_cases c1)
      as [[-> ->]|[[-> ->]|[[-> ->]|[[-> ->]|[[-> ->]|(A1 & A2 & A3 & A4 & A5 & ->)]]]]];
    destruct (escapeChar_cases c2)
      as [[-> ->]|[[-> ->]|[[-> ->]|[[-> ->]|[[-> ->]|(B1 & B2 & B3 & B4 & B5 & ->)]]]]];
      simpl; intros Heq; try discriminate Heq;
      try (injection Heq as Heq; f_equal; by apply IH);
      try (injection Heq as -> Heq; done);
      try (injection Heq as <- Heq; done).
    injection Heq as -> Heq. f_equal. by apply IH.
Qed.

Lemma escapeHtml_injective_witness : "a<b" = "a<b".
Proof. apply escapeHtml_injective. reflexivity. Defined.

(** ** [getFileName] *)

Lemma replaceBackslashes_app a b :
  replaceBackslashes (a ++ b) = replaceBackslashes a ++ replaceBackslashes b.
Proof. induction a as [|c a IH]; simpl; [done |]. by rewrite IH. Qed.

Lemma replaceBackslashes_clean s : hasChar "\" (replaceBackslashes s) = false.
Proof.
  induction s as [|c s IH]; simpl; [done |]. rewrite IH, orb_false_r.
  destruct (Ascii.eqb_spec c "\"); [done | by apply Ascii.eqb_neq].
Qed.

Lemma replaceBackslashes_id s : hasChar "\" s = false → replaceBackslashes s = s.
Proof.
  induction s as [|c s IH]; simpl; [done |].
  intros [-> Hs]%orb_false_iff. by rewrite IH.
Qed.

Lemma hasChar_replaceBackslashes c s :
  c ≠ "/"%char → hasChar c s = false → hasChar c (replaceBackslashes s) = false.
Proof.
  intros Hc. induction s as [|c' s IH]; simpl; [done |].
  intros [Hc' Hs]%orb_false_iff. rewrite IH, orb_false_r by done.
  destruct (Ascii.eqb c' "\"); [| done]. apply Ascii.eqb_neq. congruence.
Qed.

Lemma lastIndexOf_from_absent c s i found :
  hasChar c s = false → lastIndexOf_from c s i found = found.
Proof.
  revert i found. induction s as [|c' s IH]; intros i found; simpl; [done |].
  intros [-> Hs]%orb_false_iff. by apply IH.
Qed.

Lemma lastIndexOf_from_last c pre post i found :
  hasChar c post = false →
  lastIndexOf_from c (pre ++ String c post) i found = (i + Z.of_nat (String.length pre))%Z.
Proof.
  intros Hpost. revert i found. induction pre as [|c' pre IH]; intros i found; simpl.
  - rewrite Ascii.eqb_refl, lastIndexOf_from_absent by done. lia.
  - rewrite IH. lia.
Qed.

Lemma append_assoc (a b c : string) : (a ++ b) ++ c = a ++ (b ++ c).
Proof.
  induction a as [|x a IH]; [done |].
  change (String x ((a ++ b) ++ c) = String x (a ++ (b ++ c))). by rewrite IH.
Qed.

Lemma length_append (a b : string) :
  String.length (a ++ b) = (String.length a + String.length b)%nat.
Proof.
  induction a as [|x a IH]; [done |].
  change (S (String.length (a ++ b)) = S (String.length a + String.length b)).
  by rewrite IH.
Qed.

Lemma dropChars_app a b : dropChars (String.length a) (a ++ b) = b.
Proof. induction a as [|c a IH]; simpl; [by destruct b | done]. Qed.

(** A string either lacks the character or splits at its last occurrence. *)
Lemma split_at_last c s :
  hasChar c s = false
  ∨ ∃ pre post, s = pre ++ String c post ∧ hasChar c post = false.
Proof.
  induction s as [|c' s [Hno|(pre & post & -> & Hpost)]]; simpl.
  - by left.
  - destruct (Ascii.eqb_spec c' c) as [->|Hne]; [| by left].
    right. by exists "", s.
  - right. by exists (String c' pre), post.
Qed.

Lemma substring_after_last c pre post :
  hasChar c post = false →
  substringFrom (lastIndexOf c (pre ++ String c post) + 1) (pre ++ String c post) = post.
Proof.
  intros Hpost. unfold lastIndexOf, substringFrom.
  rewrite lastIndexOf_from_last by done.
  replace (Z.to_nat (0 + Z.of_nat (String.length pre) + 1))
    with (String.length (pre ++ String c "")).
  - change (String c post) with (String c "" ++ post).
    rewrite <- append_assoc. apply dropChars_app.
  - rewrite length_append. simpl. lia.
Qed.

Lemma substring_after_none c s :
  hasChar c s = false → substringFrom (lastIndexOf c s + 1) s = s.
Proof.
  intros Hs. unfold lastIndexOf, substringFrom.
  by rewrite lastIndexOf_from_absent.
Qed.

Lemma getFileName_clean path :
  hasChar "/" (getFileName path) = false ∧ hasChar "\" (getFileName path) = false.
Proof.
  unfold getFileName.
  pose proof (replaceBackslashes_clean path) as Hclean.
  destruct (split_at_last "/" (replaceBackslashes path))
    as [Hno|(pre & post & Hsplit & Hpost)].
  - rewrite substring_after_none by done. done.
  - rewrite Hsplit in *. rewrite substring_after_last by done.
    split; [done |]. rewrite hasChar_app in Hclean.
    apply orb_false_iff in Hclean as [_ Hclean]. exact Hclean.
Qed.

Lemma getFileName_of_join dir sep name :
  sep = "/"%char ∨ sep = "\"%char →
  hasChar "/" name = false → hasChar "\" name = false →
  getFileName (dir ++ String sep name) = name.
Proof.
  intros Hsep Hslash Hback. unfold getFileName.
  rewrite replaceBackslashes_app. simpl.
  rewrite (replaceBackslashes_id name) by done.
  replace (if Ascii.eqb sep "\" then "/"%char else sep) with "/"%char
    by (by destruct Hsep as [->| ->]).
  by apply substring_after_last.
Qed.

(** X15: the file name of a path holds no slash and no backslash; it is
    what follows the last separator, of either kind, and a path without
    separators is its own file name. *)
Theorem getFileName_is_last_segment (dir name : string) :
  (hasChar "/" (getFileName dir) = false ∧ hasChar "\" (getFileName dir) = false)
  ∧ (hasChar "/" name = false → hasChar "\" name = false →
     getFileName (dir ++ "/" ++ name) = name
     ∧ getFileName (dir ++ "\" ++ name) = name
     ∧ getFileName name = name).
Proof.
  split; [apply getFileName_clean |].
  intros Hslash Hback. repeat split.
  - apply getFileName_of_join; auto.
  - apply getFileName_of_join; auto.
  - unfold getFileName. rewrite replaceBackslashes_id by done.
    by apply substring_after_none.
Qed.

Lemma getFileName_is_last_segment_witness :
  (hasChar "/" (getFileName "planets/sub") = false
   ∧ hasChar "\" (getFileName "planets/sub") = false)
  ∧ getFileName ("planets/sub" ++ "/" ++ "a.json") = "a.json"
  ∧ getFileName ("planets/sub" ++ "\" ++ "a.json") = "a.json"
  ∧ getFileName "a.json" = "a.json".
Proof.
  destruct (getFileName_is_last_segment "planets/sub" "a.json") as [Hclean Hlast].
  split; [exact Hclean | by apply Hlast].
Defined.

(** ** Searching in strings *)

Lemma append_cons x (a t : string) : String x a ++ t = String x (a ++ t).
Proof. reflexivity. Qed.

Lemma prefix_app a b : String.prefix a b = true ↔ ∃ t, b = a ++ t.
Proof.
  revert a. induction b as [|y b IH]; intros [|x a]; simpl.
  - split; [intros _; by exists "" | intros _; reflexivity].
  - split; [intros ?; discriminate |].
    intros (t & Ht). rewrite append_cons in Ht. discriminate Ht.
  - split; [intros _; by exists (String y b) | intros _; reflexivity].
  - destruct (Ascii.ascii_dec x y) as [->|Hne].
    + rewrite IH. split.
      * intros (t & ->). by exists t.
      * intros (t & Ht). rewrite append_cons in Ht. injection Ht as ->. by exists t.
    + split; [intros ?; discriminate |]. intros (t & Ht). rewrite append_cons in Ht.
      injection Ht as -> _. done.
Qed.

Lemma indexOf_from_eq search s i :
  indexOf_from search s i =
    if String.prefix search s then i
    else match s with
         | "" => (-1)%Z
         | String _ rest => indexOf_from search rest (i + 1)%Z
         end.
Proof. by destruct s. Qed.

Lemma indexOf_from_found search s i :
  (0 <= i)%Z → indexOf_from search s i ≠ (-1)%Z →
  ∃ pre post,
    s = pre ++ post
    ∧ indexOf_from search s i = (i + Z.of_nat (String.length pre))%Z
    ∧ String.prefix search post = true.
Proof.
  revert i. induction s as [|c s IH]; intros i Hi; rewrite indexOf_from_eq.
  - destruct (String.prefix search "") eqn:Hprefix; [| done].
    intros _. exists "", "". simpl. split; [done |]. split; [lia | done].
  - destruct (String.prefix search (String c s)) eqn:Hprefix.
    + intros _. exists "", (String c s). simpl. split; [done |]. split; [lia | done].
    + intros Hfound. destruct (IH (i + 1)%Z) as (pre & post & -> & Hindex & Hpost);
        [lia | done |].
      exists (String c pre), post. rewrite Hindex. simpl.
      split; [done |]. split; [lia | done].
Qed.

Lemma indexOf_from_occurs search pre t i :
  (0 <= i)%Z → indexOf_from search (pre ++ search ++ t) i ≠ (-1)%Z.
Proof.
  revert i. induction pre as [|c pre IH]; intros i Hi; rewrite indexOf_from_eq.
  - change ("" ++ search ++ t) with (search ++ t).
    replace (String.prefix search (search ++ t)) with true
      by (symmetry; apply prefix_app; by exists t).
    lia.
  - rewrite append_cons.
    destruct (String.prefix search _); [lia |]. apply IH. lia.
Qed.

Lemma indexOf_from_none search s i :
  indexOf_from search s i = (-1)%Z → (0 <= i)%Z →
  ∀ pre post, s = pre ++ post → String.prefix search post = false.
Proof.
  intros Hnone Hi pre post ->.
  destruct (String.prefix search post) eqn:Hprefix; [| done].
  apply prefix_app in Hprefix as (t & ->).
  by apply (indexOf_from_occurs search pre t i) in Hi.
Qed.

Lemma includes_true search s :
  includes search s = true ↔ ∃ pre t, s = pre ++ search ++ t.
Proof.
  unfold includes, indexOf. rewrite negb_true_iff, Z.eqb_neq. split.
  - intros Hfound. apply indexOf_from_found in Hfound
      as (pre & post & -> & _ & (t & ->)%prefix_app); [| lia].
    by exists pre, t.
  - intros (pre & t & ->). apply indexOf_from_occurs. lia.
Qed.

(** ** Lower case *)

Lemma toLowerCase_app a b : toLowerCase (a ++ b) = toLowerCase a ++ toLowerCase b.
Proof.
  induction a as [|c a IH]; [done |].
  change (String (toLowerChar c) (toLowerCase (a ++ b))
          = String (toLowerChar c) (toLowerCase a ++ toLowerCase b)).
  by rewrite IH.
Qed.

Lemma toLowerCase_length s : String.length (toLowerCase s) = String.length s.
Proof. induction s as [|c s IH]; simpl; [done | by rewrite IH]. Qed.

Lemma toLowerCase_split s pre post :
  toLowerCase s = pre ++ post →
  ∃ pre' post', s = pre' ++ post' ∧ toLowerCase pre' = pre ∧ toLowerCase post' = post.
Proof.
  revert s. induction pre as [|c pre IH]; intros s.
  - intros Hs. by exists "", s.
  - destruct s as [|c' s]; [intros Hs; rewrite append_cons in Hs; discriminate Hs |].
    intros Hs. rewrite append_cons in Hs. simpl in Hs. injection Hs as <- Hs.
    destruct (IH _ Hs) as (pre' & post' & -> & <- & <-).
    by exists (String c' pre'), post'.
Qed.

Lemma toLowerChar_backslash c :
  Ascii.eqb (toLowerChar c) "\" = Ascii.eqb c "\".
Proof. destruct c as [[] [] [] [] [] [] [] []]; reflexivity. Qed.

Lemma toLowerChar_replace c :
  toLowerChar (if Ascii.eqb c "\" then "/"%char else c) =
  (if Ascii.eqb (toLowerChar c) "\" then "/"%char else toLowerChar c).
Proof. destruct c as [[] [] [] [] [] [] [] []]; reflexivity. Qed.

Lemma toLowerCase_replaceBackslashes s :
  toLowerCase (replaceBackslashes s) = replaceBackslashes (toLowerCase s).
Proof.
  induction s as [|c s IH]; simpl; [done |]. by rewrite IH, toLowerChar_replace.
Qed.

Lemma hasChar_backslash_toLowerCase s : hasChar "\" (toLowerCase s) = hasChar "\" s.
Proof.
  induction s as [|c s IH]; simpl; [done |]. by rewrite IH, toLowerChar_backslash.
Qed.

(** ** Relative paths *)

Lemma relative_from lowerDir normalized :
  indexOf lowerDir (toLowerCase normalized) ≠ (-1)%Z →
  ∃ pre,
    normalized = pre ++ substringFrom (indexOf lowerDir (toLowerCase normalized)) normalized
    ∧ String.prefix lowerDir
        (toLowerCase
           (substringFrom (indexOf lowerDir (toLowerCase normalized)) normalized))
      = true.
Proof.
  unfold indexOf. intros Hfound.
  apply indexOf_from_found in Hfound as (pre & post & Hsplit & -> & Hprefix); [| lia].
  apply toLowerCase_split in Hsplit as (pre' & post' & -> & <- & <-).
  exists pre'. unfold substringFrom.
  replace (Z.to_nat (0 + Z.of_nat (String.length (toLowerCase pre'))))
    with (String.length pre') by (rewrite toLowerCase_length; lia).
  by rewrite dropChars_app.
Qed.

Lemma dropChars_end_piece n s : ∃ pre, s = pre ++ dropChars n s.
Proof.
  revert s. induction n as [|n IH]; intros s.
  - by exists "".
  - destruct s as [|c s]; [by exists "" |].
    destruct (IH s) as (pre & Hpre). exists (String c pre).
    rewrite append_cons. simpl. by rewrite <- Hpre.
Qed.

Lemma includes_false search s :
  includes search s = false ↔ ¬ ∃ pre t, s = pre ++ search ++ t.
Proof.
  rewrite <- includes_true. by destruct (includes search s).
Qed.

(** X16: when the relative path exists it is an end piece of the path with
    its backslashes turned into slashes; for a path of ASCII characters it
    begins with the directory name, whatever the case of the letters
    (between two slashes, for the loader of the cache); and the function
    throws exactly when the lower-cased directory name occurs nowhere in
    the lower-cased path. *)
Theorem relative_path_starts_at_directory (fullPath directoryName relativePath : string) :
  (getRelativePathFrom fullPath directoryName = Some relativePath
   ∨ getRelativePathFrom_cache fullPath directoryName = Some relativePath →
   ∃ pre, replaceBackslashes fullPath = pre ++ relativePath)
  ∧ (isAscii fullPath = true →
     getRelativePathFrom fullPath directoryName = Some relativePath →
     String.prefix (toLowerCase directoryName) (toLowerCase relativePath) = true)
  ∧ (isAscii fullPath = true →
     getRelativePathFrom_cache fullPath directoryName = Some relativePath →
     String.prefix ("/" ++ toLowerCase directoryName ++ "/")
                   (toLowerCase relativePath) = true)
  ∧ (getRelativePathFrom fullPath directoryName = None
     ↔ ¬ ∃ pre t, toLowerCase (replaceBackslashes fullPath)
                  = pre ++ toLowerCase directoryName ++ t).
Proof.
  split; [| split; [| split]].
  - unfold getRelativePathFrom, getRelativePathFrom_cache.
    intros [Hrel|Hrel]; destruct (_ =? _)%Z; try done;
      injection Hrel as <-; apply dropChars_end_piece.
  - intros _. unfold getRelativePathFrom.
    destruct (Z.eqb_spec (indexOf (toLowerCase directoryName)
                            (toLowerCase (replaceBackslashes fullPath))) (-1))
      as [|Hfound]; [done |].
    intros [= <-]. by destruct (relative_from _ _ Hfound) as (pre & _ & Hstart).
  - intros _. unfold getRelativePathFrom_cache.
    destruct (Z.eqb_spec (indexOf ("/" ++ toLowerCase directoryName ++ "/")
                            (toLowerCase (replaceBackslashes fullPath))) (-1))
      as [|Hfound]; [done |].
    intros [= <-]. by destruct (relative_from _ _ Hfound) as (pre & _ & Hstart).
  - rewrite <- includes_false. unfold getRelativePathFrom, includes.
    destruct (_ =? _)%Z; simpl; split; done.
Qed.

Lemma relative_path_starts_at_directory_witness :
  (∃ pre, replaceBackslashes "Mod\Planets/Sub/a.json" = pre ++ "Planets/Sub/a.json")
  ∧ String.prefix (toLowerCase "planets/") (toLowerCase "Planets/Sub/a.json") = true.
Proof.
  destruct (relative_path_starts_at_directory
              "Mod\Planets/Sub/a.json" "planets/" "Planets/Sub/a.json")
    as (Hend & Hstart & _).
  split; [apply Hend; by left | by apply Hstart].
Defined.

(** ** The file tree *)

Lemma getRelativePathFrom_is_Some fullPath directoryName :
  hasChar "\" directoryName = false →
  includes (toLowerCase directoryName) (toLowerCase fullPath) = true →
  is_Some (getRelativePathFrom fullPath directoryName).
Proof.
  intros Hdir (pre & t & Hsplit)%includes_true.
  unfold getRelativePathFrom.
  assert (includes (toLowerCase directoryName)
                   (toLowerCase (replaceBackslashes fullPath)) = true) as Hin.
  { apply includes_true.
    exists (replaceBackslashes pre), (replaceBackslashes t).
    rewrite toLowerCase_replaceBackslashes, Hsplit, !replaceBackslashes_app.
    rewrite (replaceBackslashes_id (toLowerCase directoryName)); [done |].
    by rewrite hasChar_backslash_toLowerCase. }
  unfold includes in Hin. apply negb_true_iff in Hin. rewrite Hin. by eexists.
Qed.

(** X17: every file [findFilesInGitHubDirectory] selects is a blob with a
    path, and [getRelativePathFrom] does not throw on that path, for a
    directory name without backslash (as ['planets/'] and ['systems/']). *)
Theorem files_in_directory_have_relative_paths (tree : list TreeEntry.t)
    (directoryName : string) (file : TreeEntry.t) :
  hasChar "\" directoryName = false →
  In file (findFilesInGitHubDirectory tree directoryName) →
  In file tree
  ∧ TreeEntry.type file = "blob"
  ∧ ∃ path relativePath,
      TreeEntry.path file = Some path
      ∧ endsWith ".json" (toLowerCase path) = true
      ∧ getRelativePathFrom path directoryName = Some relativePath.
Proof.
  intros Hdir [Hin Htest]%filter_In. split; [done |].
  apply andb_true_iff in Htest as [Htype Hpath].
  split; [by apply String.eqb_eq |].
  destruct (TreeEntry.path file) as [path|]; [| done].
  apply andb_true_iff in Hpath as [Hincludes Hjson].
  destruct (getRelativePathFrom_is_Some path directoryName Hdir Hincludes)
    as [relativePath Hrel].
  by exists path, relativePath.
Qed.

Lemma files_in_directory_have_relative_paths_witness :
  In (TreeEntry.mk "blob" (Some "Mod\Planets/a.JSON")) [TreeEntry.mk "blob" (Some "Mod\Planets/a.JSON")]
  ∧ TreeEntry.type (TreeEntry.mk "blob" (Some "Mod\Planets/a.JSON")) = "blob"
  ∧ ∃ path relativePath,
      TreeEntry.path (TreeEntry.mk "blob" (Some "Mod\Planets/a.JSON")) = Some path
      ∧ endsWith ".json" (toLowerCase path) = true
      ∧ getRelativePathFrom path "planets/" = Some relativePath.
Proof.
  apply (files_in_directory_have_relative_paths
           [TreeEntry.mk "blob" (Some "Mod\Planets/a.JSON")] "planets/").
  - reflexivity.
  - vm_compute. by left.
Defined.

Lemma In_single_candidates tree fileName file :
  In file
    (List.filter (λ f,
         let lowerPath := toLowerCase (pathOrEmpty f) in
         negb (includes "/bin/debug/" lowerPath || includes "/bin/release/" lowerPath))
       (if String.eqb (toLowerCase fileName) "manifest.json"
        then List.filter
               (λ f, negb (includes "packages/" (toLowerCase (pathOrEmpty f))))
               (findGitHubFilesByName tree fileName)
        else findGitHubFilesByName tree fileName))
  ↔ In file tree
    ∧ TreeEntry.type file = "blob"
    ∧ toLowerCase (getFileName (pathOrEmpty file)) = toLowerCase fileName
    ∧ includes "/bin/debug/" (toLowerCase (pathOrEmpty file)) = false
    ∧ includes "/bin/release/" (toLowerCase (pathOrEmpty file)) = false
    ∧ (toLowerCase fileName = "manifest.json" →
       includes "packages/" (toLowerCase (pathOrEmpty file)) = false).
Proof.
  rewrite filter_In. simpl. rewrite negb_true_iff, orb_false_iff.
  unfold findGitHubFilesByName.
  destruct (String.eqb_spec (toLowerCase fileName) "manifest.json") as [Hm|Hm].
  - rewrite !filter_In, andb_true_iff, negb_true_iff, !String.eqb_eq. naive_solver.
  - rewrite !filter_In, andb_true_iff, !String.eqb_eq. naive_solver.
Qed.

(** X18: the path [findSingleGitHubFileByName] returns is the path of a
    blob of the tree whose file name is the one asked for, whatever the
    case, and which lies neither under [/bin/debug/] nor under
    [/bin/release/], nor under a [packages/] folder when a manifest is asked
    for; and it returns null only when the tree has no such blob. The names
    of the mod and of the repository play no part. *)
Theorem single_file_passes_every_filter (tree : list TreeEntry.t)
    (fileName modUniqueName repo : string) :
  (∀ path, findSingleGitHubFileByName tree fileName modUniqueName repo = Some path →
     ∃ file, In file tree
       ∧ TreeEntry.path file = path
       ∧ TreeEntry.type file = "blob"
       ∧ toLowerCase (getFileName (pathOrEmpty file)) = toLowerCase fileName
       ∧ includes "/bin/debug/" (toLowerCase (pathOrEmpty file)) = false
       ∧ includes "/bin/release/" (toLowerCase (pathOrEmpty file)) = false
       ∧ (toLowerCase fileName = "manifest.json" →
          includes "packages/" (toLowerCase (pathOrEmpty file)) = false))
  ∧ (findSingleGitHubFileByName tree fileName modUniqueName repo = None →
     ∀ file, In file tree →
       TreeEntry.type file = "blob" →
       toLowerCase (getFileName (pathOrEmpty file)) = toLowerCase fileName →
       includes "/bin/debug/" (toLowerCase (pathOrEmpty file)) = false →
       includes "/bin/release/" (toLowerCase (pathOrEmpty file)) = false →
       toLowerCase fileName = "manifest.json"
       ∧ includes "packages/" (toLowerCase (pathOrEmpty file)) = true).
Proof.
  unfold findSingleGitHubFileByName.
  pose proof (In_single_candidates tree fileName) as Hin.
  destruct (List.filter _ _) as [|first rest].
  - split; [done |]. intros _ file Htree Htype Hname Hdebug Hrelease.
    destruct (decide (toLowerCase fileName = "manifest.json")) as [Hm|Hm].
    + split; [done |].
      destruct (includes "packages/" (toLowerCase (pathOrEmpty file))) eqn:Hp; [done |].
      exfalso. by apply (proj2 (Hin file)).
    + exfalso. by apply (proj2 (Hin file)).
  - split; [| done]. intros path [= <-].
    destruct (proj1 (Hin first) (or_introl eq_refl)) as (H1 & H2 & H3 & H4 & H5 & H6).
    by exists first.
Qed.

Lemma single_file_passes_every_filter_witness :
  ∃ file, In file [TreeEntry.mk "blob" (Some "Packages/manifest.json");
                   TreeEntry.mk "blob" (Some "Mod/Manifest.JSON")]
    ∧ TreeEntry.path file = Some "Mod/Manifest.JSON"
    ∧ TreeEntry.type file = "blob"
    ∧ toLowerCase (getFileName (pathOrEmpty file)) = toLowerCase "manifest.json"
    ∧ includes "/bin/debug/" (toLowerCase (pathOrEmpty file)) = false
    ∧ includes "/bin/release/" (toLowerCase (pathOrEmpty file)) = false
    ∧ (toLowerCase "manifest.json" = "manifest.json" →
       includes "packages/" (toLowerCase (pathOrEmpty file)) = false).
Proof.
  apply (proj1 (single_file_passes_every_filter
                  [TreeEntry.mk "blob" (Some "Packages/manifest.json");
                   TreeEntry.mk "blob" (Some "Mod/Manifest.JSON")]
                  "manifest.json" "a.mod" "a/mod")).
  reflexivity.
Defined.

(** ** The values of a field in the report *)

Lemma pushValueMod_None value modName valuesByMod :
  Forall (λ entry, inherited entry.1 = false) valuesByMod →
  pushValueMod value modName valuesByMod = None ↔ inherited value = true.
Proof.
  intros Hall. unfold pushValueMod.
  destruct (Map_get value valuesByMod) as [mods|] eqn:Hget.
  - apply Map_get_elem_of in Hget.
    pose proof (proj1 (Forall_forall _ _) Hall (value, mods) Hget) as Hno.
    simpl in Hno. rewrite Hno. done.
  - destruct (inherited value); done.
Qed.

Lemma pushValueMod_keys_not_inherited value modName valuesByMod valuesByMod' :
  Forall (λ entry, inherited entry.1 = false) valuesByMod →
  pushValueMod value modName valuesByMod = Some valuesByMod' →
  Forall (λ entry, inherited entry.1 = false) valuesByMod'.
Proof.
  intros Hall. unfold pushValueMod.
  destruct (Map_get value valuesByMod) as [mods|] eqn:Hget.
  - intros [= <-]. apply Forall_Map_set; [| done]. simpl.
    apply Map_get_elem_of in Hget.
    apply (proj1 (Forall_forall _ _) Hall (value, mods) Hget).
  - destruct (inherited value) eqn:Hinh; [done |].
    intros [= <-]. by apply Forall_Map_set.
Qed.

Lemma pushModValues_None modName values valuesByMod :
  Forall (λ entry, inherited entry.1 = false) valuesByMod →
  (pushModValues modName values valuesByMod = None
   ↔ ∃ value, In value values ∧ inherited value = true)
  ∧ ∀ valuesByMod', pushModValues modName values valuesByMod = Some valuesByMod' →
      Forall (λ entry, inherited entry.1 = false) valuesByMod'.
Proof.
  revert valuesByMod. induction values as [|value rest IH]; intros valuesByMod Hall; simpl.
  - split; [| by intros ? [= <-]]. split; [done | by intros (? & [] & _)].
  - destruct (pushValueMod value modName valuesByMod) as [valuesByMod1|] eqn:Hpush; simpl.
    + pose proof (pushValueMod_keys_not_inherited _ _ _ _ Hall Hpush) as Hall1.
      destruct (IH _ Hall1) as [Hnone Hsome]. split; [| done].
      rewrite Hnone. split; [intros (v & Hin & Hinh); exists v; auto |].
      intros (v & [<-|Hin] & Hinh); [| by exists v].
      apply (pushValueMod_None _ modName _ Hall) in Hinh. congruence.
    + split; [| done]. split; [| done]. intros _. exists value.
      split; [by left |]. by apply (pushValueMod_None _ modName _ Hall).
Qed.

Lemma valuesByModLoop_None mods valuesByMod :
  Forall (λ entry, inherited entry.1 = false) valuesByMod →
  valuesByModLoop mods valuesByMod = None
  ↔ ∃ modInfo value, In modInfo mods ∧ In value (PerFieldModInfo.values modInfo)
                 ∧ inherited value = true.
Proof.
  revert valuesByMod. induction mods as [|modInfo rest IH]; intros valuesByMod Hall; simpl.
  - split; [done | by intros (? & ? & [] & _)].
  - destruct (pushModValues_None (PerFieldModInfo.modName modInfo)
                (PerFieldModInfo.values modInfo) valuesByMod Hall) as [Hnone Hsome].
    destruct (pushModValues _ _ _) as [valuesByMod1|]; simpl.
    + rewrite IH by (by apply Hsome). split.
      * intros (m & v & Hin & Hv & Hinh). exists m, v. auto.
      * intros (m & v & [<-|Hin] & Hv & Hinh); [| by exists m, v].
        exfalso. assert (Some valuesByMod1 = None) as Habs; [| discriminate Habs].
        apply Hnone. by exists v.
    + split; [| done]. intros _.
      destruct (proj1 Hnone eq_refl) as (v & Hv & Hinh). exists modInfo, v. auto.
Qed.

(** X19: the loop of [getFieldHtml] that maps each value to the mods using
    it throws exactly when some value of some mod is a name every object
    inherits from [Object.prototype] (["constructor"], ["toString"], ...). *)
Theorem report_values_throw_on_inherited_names (mods : list PerFieldModInfo.t) :
  valuesByModLoop mods [] = None
  ↔ ∃ modInfo value, In modInfo mods ∧ In value (PerFieldModInfo.values modInfo)
                 ∧ inherited value = true.
Proof. apply valuesByModLoop_None. constructor. Qed.

(** ** The union invariant in the summaries *)

Lemma elem_of_sortedValues value values : value ∈ sortedValues values ↔ value ∈ values.
Proof. by rewrite sortedValues_elements, elem_of_elements. Qed.

Lemma elem_of_fieldMods localeCompare mods info :
  info ∈ fieldMods localeCompare mods
  ↔ ∃ modName values, (modName, values) ∈ mods
                      ∧ info = PerFieldModInfo.mk modName (sortedValues values).
Proof.
  unfold fieldMods. rewrite Array_sort_Permutation, list_elem_of_In, in_map_iff.
  split.
  - intros ([modName values] & <- & Hin). exists modName, values.
    split; [by apply list_elem_of_In | done].
  - intros (modName & values & Hin & ->). exists (modName, values).
    split; [done | by apply list_elem_of_In].
Qed.

Lemma fieldSummaryOf_valuesAreUnion localeCompare a :
  unionInvariant a → valuesAreUnion (fieldSummaryOf localeCompare a).
Proof.
  unfold unionInvariant, valuesAreUnion. intros Hinv value. simpl.
  rewrite elem_of_sortedValues, Hinv, elem_of_union_list. split.
  - intros (values & ([modName values'] & -> & Hin)%list_elem_of_fmap & Hvalue).
    exists (PerFieldModInfo.mk modName (sortedValues values')). split.
    + apply elem_of_fieldMods. by exists modName, values'.
    + by apply elem_of_sortedValues.
  - intros (info & (modName & values & Hin & ->)%elem_of_fieldMods & Hvalue).
    exists values. split.
    + apply list_elem_of_fmap. by exists (modName, values).
    + by apply elem_of_sortedValues in Hvalue.
Qed.

Lemma buildPerFieldLoop_valuesAreUnion localeCompare m perField :
  Forall (λ entry, unionInvariant entry.2) m →
  Forall (λ entry, valuesAreUnion entry.2) perField →
  Forall (λ entry, valuesAreUnion entry.2) (buildPerFieldLoop localeCompare m perField).
Proof.
  intros Hm. revert perField.
  induction Hm as [|[fieldPath a] rest Ha _ IH]; intros perField Hall; simpl; [done |].
  apply IH. unfold assignField.
  destruct (String.eqb fieldPath "__proto__"); [done |].
  apply Forall_Map_set; [| done]. by apply fieldSummaryOf_valuesAreUnion.
Qed.

(** X20: the union invariant reaches the per-field summary: in every row
    built from an aggregate the drivers can reach, a value is among the
    distinct values of the field exactly when one of the mods of the row
    lists it. *)
Theorem perField_summary_values_are_union (localeCompare : string → string → Z)
    (fieldAnalysisMap : Map FieldAnalysis)
    (fieldPath : string) (summary : PerFieldSummary.t) (value : string) :
  reachable fieldAnalysisMap →
  (fieldPath, summary) ∈ buildPerFieldSummaries localeCompare fieldAnalysisMap →
  value ∈ PerFieldSummary.distinctValues summary
  ↔ ∃ info, info ∈ PerFieldSummary.mods summary
            ∧ value ∈ PerFieldModInfo.values info.
Proof.
  intros Hreach Hin.
  assert (Forall (λ entry, valuesAreUnion entry.2)
                 (buildPerFieldSummaries localeCompare fieldAnalysisMap)) as Hall.
  { apply buildPerFieldLoop_valuesAreUnion; [| constructor].
    by apply reachable_unionInvariant. }
  apply (proj1 (Forall_forall _ _) Hall (fieldPath, summary) Hin).
Qed.

Lemma perField_summary_values_are_union_witness :
  "1" ∈ PerFieldSummary.distinctValues
          (PerFieldSummary.mk primitive [PerFieldModInfo.mk "a.mod" ["1"]] ["1"])
  ↔ ∃ info, info ∈ PerFieldSummary.mods
                     (PerFieldSummary.mk primitive [PerFieldModInfo.mk "a.mod" ["1"]] ["1"])
            ∧ "1" ∈ PerFieldModInfo.values info.
Proof.
  apply (perField_summary_values_are_union codeUnitCompare
           (mergeField "a.mod" [] "x" (newFieldAnalysis {[ "1" ]} primitive)) "x").
  - constructor. constructor.
  - vm_compute. apply list_elem_of_here.
Defined.
